(** * AI-vs-human text detector: the scoring pipeline of [api/detect.py]

    A shallow embedding of [AIDetectorModel] (tokenizer, feature extractor,
    scorer, decision/formatter) together with the properties stated for it.

    Modelling conventions.
    - A Python [str] is a list of characters.  Characters are the code points
      U+0000..U+00FF (Rocq's [ascii]); the Unicode-aware classes that the
      source relies on ([\w], [\b], [str.strip], [str.lower]) are written out
      for that range as CPython defines them.
    - A Python [float] is an exact rational ([Q]); the rounding of IEEE
      doubles is not modelled.  [math.exp] is a parameter of the scoring
      section; it returns a value or raises [OverflowError], and a call of
      [predict] returns a result or raises.
    - A Python [dict] is a [gmap], a Python [set] a [gset]. *)

From Stdlib Require Import ZArith QArith Qround Qabs Qminmax Ascii String.
From Stdlib Require Import Lia Lqa Bool.
From stdpp Require Import gmap strings list fin_maps.

Local Open Scope Z_scope.
Local Open Scope nat_scope.

(** ** Characters and strings *)

Abbreviation str := (list ascii).

(** The characters of a string literal. *)
Definition chars (s : string) : str := list_ascii_of_string s.

Definition code (c : ascii) : nat := nat_of_ascii c.

Definition in_range (lo hi : nat) (c : ascii) : bool :=
  (lo <=? code c) && (code c <=? hi).

(** [[a-z]] *)
Definition is_lower_az (c : ascii) : bool := in_range 97 122 c.

(** [[a-zA-Z]] *)
Definition is_alpha (c : ascii) : bool := in_range 65 90 c || in_range 97 122 c.

(** [\w] of a [str] pattern: [str.isalnum] or underscore.  Below U+0100 the
    alphanumeric characters are the ASCII digits and letters, the letters
    U+00AA, U+00B5, U+00BA, U+00C0..U+00D6, U+00D8..U+00F6, U+00F8..U+00FF,
    the superscript digits U+00B2, U+00B3, U+00B9 and the fractions
    U+00BC..U+00BE. *)
Definition is_word (c : ascii) : bool :=
  in_range 48 57 c || is_alpha c || (code c =? 95)
  || (code c =? 170) || (code c =? 181) || (code c =? 186)
  || in_range 178 179 c || (code c =? 185) || in_range 188 190 c
  || in_range 192 214 c || in_range 216 246 c || in_range 248 255 c.

(** Whitespace as [str.strip] sees it: U+0009..U+000D, U+001C..U+0020,
    U+0085 and U+00A0. *)
Definition is_space (c : ascii) : bool :=
  in_range 9 13 c || in_range 28 32 c || (code c =? 133) || (code c =? 160).

(** [str.lower] on one character: A-Z, U+00C0..U+00D6 and U+00D8..U+00DE move
    up by 32; everything else below U+0100 is unchanged. *)
Definition lower_char (c : ascii) : ascii :=
  if in_range 65 90 c || in_range 192 214 c || in_range 216 222 c
  then ascii_of_nat (code c + 32) else c.

Definition lower (s : str) : str := map lower_char s.

(** The double quote character. *)
Definition dquote : ascii := ascii_of_nat 34.

(** [c in literal] for a one-character string [c]. *)
Definition char_in (c : ascii) (literal : str) : bool :=
  existsb (Ascii.eqb c) literal.

Fixpoint take_while (p : ascii → bool) (s : str) : str :=
  match s with
  | [] => []
  | c :: s' => if p c then c :: take_while p s' else []
  end.

Fixpoint drop_while (p : ascii → bool) (s : str) : str :=
  match s with
  | [] => []
  | c :: s' => if p c then drop_while p s' else s
  end.

(** [str.strip()]: leading and trailing whitespace removed. *)
Definition strip (s : str) : str :=
  rev (drop_while is_space (rev (drop_while is_space s))).

(** [' '.join(ws)] *)
Fixpoint join_space (ws : list str) : str :=
  match ws with
  | [] => []
  | [w] => w
  | w :: ws' => w ++ chars " " ++ join_space ws'
  end.

(** ** The fragment of [re] that the source uses

    Patterns are sequences of atoms: the zero-width [\b], a greedy
    one-or-more repetition of a character class, and a literal character.
    The matcher is the backtracking one of [re]: a repetition first takes
    the longest run and gives characters back one at a time until the rest
    of the pattern matches. *)

Inductive atom : Type :=
  | WordBoundary
  | Plus (cls : ascii → bool)
  | Lit (c : ascii).

Definition regex := list atom.

Definition is_word_opt (o : option ascii) : bool :=
  match o with Some c => is_word c | None => false end.

(** [\b] between the character before the position ([prev]) and the one
    at the position (the head of [s]); outside the string counts as a
    non-word character. *)
Definition at_boundary (prev : option ascii) (s : str) : bool :=
  xorb (is_word_opt prev) (is_word_opt (head s)).

Definition prepend (m : str) (r : option (str * str)) : option (str * str) :=
  match r with
  | Some (m', rest) => Some (m ++ m', rest)
  | None => None
  end.

(** Try [k], [k-1], ..., [1] and keep the first success. *)
Fixpoint backtrack {A} (try : nat → option A) (k : nat) : option A :=
  match k with
  | 0 => None
  | S k' => match try k with Some r => Some r | None => backtrack try k' end
  end.

(** [match_here r prev s]: match [r] at the start of [s], the character before
    being [prev]; on success the matched text and what follows it. *)
Fixpoint match_here (r : regex) (prev : option ascii) (s : str)
  : option (str * str) :=
  match r with
  | [] => Some ([], s)
  | WordBoundary :: r' =>
      if at_boundary prev s then match_here r' prev s else None
  | Lit c :: r' =>
      match s with
      | x :: s' =>
          if Ascii.eqb x c then prepend [x] (match_here r' (Some x) s')
          else None
      | [] => None
      end
  | Plus cls :: r' =>
      backtrack
        (fun k => prepend (take k s)
                    (match_here r' (last (take k s)) (drop k s)))
        (length (take_while cls s))
  end.

(** The scan of [re.findall]: at each position try a match; after a match
    resume where it ended, otherwise move one character on.  (The patterns
    below never match the empty string; an empty match is recorded and the
    scan moves one character on.) *)
Fixpoint findall_loop (r : regex) (fuel : nat) (prev : option ascii) (s : str)
  : list str :=
  match fuel with
  | 0 => []
  | S fuel' =>
      match match_here r prev s with
      | Some (c :: m, rest) =>
          (c :: m) :: findall_loop r fuel' (last (c :: m)) rest
      | Some ([], _) =>
          match s with
          | [] => [[]]
          | c :: s' => [] :: findall_loop r fuel' (Some c) s'
          end
      | None =>
          match s with
          | [] => []
          | c :: s' => findall_loop r fuel' (Some c) s'
          end
      end
  end.

Definition re_findall (r : regex) (s : str) : list str :=
  findall_loop r (S (length s)) None s.

(** The scan of [re.split]: the text between consecutive matches, with the
    text before the first and after the last one.  [cur] is the piece being
    collected, most recent character first. *)
Fixpoint split_loop (r : regex) (fuel : nat) (prev : option ascii)
  (cur : str) (s : str) : list str :=
  match fuel with
  | 0 => [rev cur]
  | S fuel' =>
      match s with
      | [] => [rev cur]
      | c :: s' =>
          match match_here r prev s with
          | Some (x :: m, rest) =>
              rev cur :: split_loop r fuel' (last (x :: m)) [] rest
          | _ => split_loop r fuel' (Some c) (c :: cur) s'
          end
      end
  end.

Definition re_split (r : regex) (s : str) : list str :=
  split_loop r (S (length s)) None [] s.

(** ** Tokenizer *)

(** [[.!?]] *)
Definition is_terminator (c : ascii) : bool := char_in c (chars ".!?").

(** [r'[.!?]+'] *)
Definition sentence_end_re : regex := [Plus is_terminator].

(** [r'\b[a-zA-Z]+\b'] *)
Definition word_re : regex := [WordBoundary; Plus is_alpha; WordBoundary].

(** [r"\b\w+'[a-z]+\b"] *)
Definition contraction_re : regex :=
  [WordBoundary; Plus is_word; Lit "'"%char; Plus is_lower_az; WordBoundary].

Definition nonempty {A} (l : list A) : bool :=
  match l with [] => false | _ => true end.

Definition _split_sentences (text : str) : list str :=
  let sentences := re_split sentence_end_re text in
  map strip (filter (λ s, nonempty (strip s) = true) sentences).

Definition _tokenize (text : str) : list str :=
  re_findall word_re text.

(** ** Numbers *)

Local Open Scope Q_scope.

(** [len(l)] *)
Definition len {A} (l : list A) : Z := Z.of_nat (length l).

(** [a / b] on two [int]s (true division).  Every use in the source sits
    behind a test that [b] is not zero. *)
Definition truediv (a b : Z) : Q := inject_Z a / inject_Z b.

(** [sum(1 for x in l if p x)] *)
Definition count_if {A} (p : A → bool) (l : list A) : Z :=
  len (List.filter p l).

(** [sum(l)] on a list of [int]s. *)
Definition sum_list (l : list Z) : Z := fold_left Z.add l 0%Z.

Definition Qlt_bool (a b : Q) : bool := negb (Qle_bool b a).

(** [min(a, b)] and [max(a, b)]: the first argument unless the second is
    strictly smaller (resp. larger). *)
Definition py_min (a b : Q) : Q := if Qlt_bool b a then b else a.
Definition py_max (a b : Q) : Q := if Qlt_bool a b then b else a.

(** Round to the nearest integer, ties to the even one. *)
Definition round_half_even (x : Q) : Z :=
  let f := Qfloor x in
  let d := x - inject_Z f in
  if Qlt_bool d (1 # 2) then f
  else if Qlt_bool (1 # 2) d then (f + 1)%Z
  else if Z.even f then f else (f + 1)%Z.

(** [round(x, ndigits)], on the exact rational.  ([round] itself works on
    the double: a value that is a decimal tie as a rational is stored a
    little above or below it and may round the other way there.) *)
Definition py_round (x : Q) (ndigits : nat) : Q :=
  let scale := inject_Z (10 ^ Z.of_nat ndigits) in
  inject_Z (round_half_even (x * scale)) / scale.

(** ** Feature extractor *)

Definition word_set (ws : list string) : gset str := list_to_set (chars <$> ws).

Definition in_set (w : str) (s : gset str) : bool := bool_decide (w ∈ s).

Definition conjunctions : gset str :=
  word_set ["and"; "but"; "or"; "so"; "yet"; "for"; "nor"; "although";
            "because"; "since"; "while"; "whereas"; "however"; "therefore";
            "moreover"; "furthermore"; "additionally"; "consequently"]%string.

Definition first_person : gset str :=
  word_set ["i"; "me"; "my"; "mine"; "myself"; "we"; "us"; "our"; "ours";
            "ourselves"]%string.

Definition passive_indicators : gset str :=
  word_set ["was"; "were"; "been"; "being"; "is"; "are"; "am"]%string.

Definition informal_markers : gset str :=
  word_set ["gonna"; "wanna"; "kinda"; "sorta"; "yeah"; "yep"; "nope"; "ok";
            "okay"; "hey"; "hi"; "well"; "like"; "actually"; "basically";
            "literally"; "totally"]%string.

(** The loop of [_calculate_repetition]: one trigram per start index. *)
Definition trigrams_of (words : list str) : list str :=
  fold_left
    (λ trigrams i, trigrams ++ [lower (join_space (take 3 (drop i words)))])
    (seq 0 (length words - 2)) [].

Definition _calculate_repetition (words : list str) : Q :=
  if (length words <? 4)%nat then 0
  else
    let trigrams := trigrams_of words in
    if negb (nonempty trigrams) then 0
    else
      let unique_trigrams : gset str := list_to_set trigrams in
      let repetition_ratio :=
        1 - truediv (Z.of_nat (size unique_trigrams)) (len trigrams) in
      repetition_ratio.

Definition _calculate_formality (text : str) (words : list str) : Q :=
  if negb (nonempty words) then 0.5
  else
    let contractions := re_findall contraction_re (lower text) in
    let contraction_ratio := truediv (len contractions) (len words) in
    let informal_count :=
      count_if (λ word, in_set (lower word) informal_markers) words in
    let informal_ratio := truediv informal_count (len words) in
    let formality := 1 - (contraction_ratio * 2 + informal_ratio) in
    py_max 0 (py_min 1 formality).

(** The literal of the punctuation count: period, comma, exclamation and
    question mark, semicolon, colon, double quote, hyphen and the three
    pairs of brackets. *)
Definition punctuation_marks : str :=
  chars ".,!?;:" ++ [dquote] ++ chars "-()[]{}".

Definition extract_features (text : str) : gmap string Q :=
  if negb (nonempty text) || (length (strip text) =? 0)%nat then ∅
  else
    let sentences := _split_sentences text in
    let words := _tokenize text in
    if (length words =? 0)%nat || (length sentences =? 0)%nat then ∅
    else
      let features : gmap string Q := ∅ in
      let sentence_lengths := map (λ s, len (_tokenize s)) sentences in
      let features :=
        <["avg_sentence_length" :=
            if nonempty sentence_lengths
            then truediv (sum_list sentence_lengths) (len sentence_lengths)
            else 0]> features in
      let unique_words : gset str := list_to_set (lower <$> words) in
      let features :=
        <["vocabulary_richness" :=
            if nonempty words
            then truediv (Z.of_nat (size unique_words)) (len words)
            else 0]> features in
      let punctuation_count :=
        count_if (λ char, char_in char punctuation_marks) text in
      let features :=
        <["punctuation_density" :=
            if nonempty words then truediv punctuation_count (len words)
            else 0]> features in
      let conjunction_count :=
        count_if (λ word, in_set (lower word) conjunctions) words in
      let features :=
        <["conjunction_freq" :=
            if nonempty words then truediv conjunction_count (len words)
            else 0]> features in
      let first_person_count :=
        count_if (λ word, in_set (lower word) first_person) words in
      let features :=
        <["first_person_freq" :=
            if nonempty words then truediv first_person_count (len words)
            else 0]> features in
      let passive_count :=
        count_if (λ word, in_set (lower word) passive_indicators) words in
      let features :=
        <["passive_voice_freq" :=
            if nonempty words then truediv passive_count (len words)
            else 0]> features in
      let features :=
        <["avg_word_length" :=
            if nonempty words
            then truediv (sum_list (map len words)) (len words)
            else 0]> features in
      let clause_markers := count_if (λ char, char_in char (chars ",;:")) text in
      let features :=
        <["sentence_complexity" :=
            if nonempty sentences then truediv clause_markers (len sentences)
            else 0]> features in
      let features :=
        <["repetition_score" := _calculate_repetition words]> features in
      let features :=
        <["formality_score" := _calculate_formality text words]> features in
      features.

(** ** Scorer and decision *)

(** The values a result dictionary holds. *)
Inductive value : Type :=
  | VStr (s : string)
  | VFloat (x : Q)
  | VInt (n : Z)
  | VDict (d : gmap string Q).

(** [self.coefficients], in insertion order (the order [items()] yields). *)
Definition coefficients : list (string * Q) :=
  [("avg_sentence_length", 0.025); ("vocabulary_richness", -1.5);
   ("punctuation_density", -0.5); ("conjunction_freq", 0.6);
   ("first_person_freq", -1.5); ("passive_voice_freq", 0.8);
   ("avg_word_length", 0.4); ("sentence_complexity", 0.5);
   ("repetition_score", 1.0); ("formality_score", 1.2)]%string.

(** [self.intercept] *)
Definition intercept : Q := 0.4.

(** The [if]/[elif] chain on the feature name inside the scoring loop. *)
Definition normalized (feature_name : string) (value : Q) : Q :=
  if String.eqb feature_name "avg_sentence_length" then (value - 15) / 10
  else if String.eqb feature_name "avg_word_length" then (value - 5) / 2
  else if String.eqb feature_name "sentence_complexity" then (value - 1) / 2
  else value.

(** The scoring loop of [predict]: [logit] after all coefficients. *)
Definition logit (features : gmap string Q) : Q :=
  fold_left
    (λ logit '(feature_name, coefficient),
       match features !! feature_name with
       | Some value => logit + coefficient * normalized feature_name value
       | None => logit
       end)
    coefficients intercept.

(** The [if]/[elif]/[else] that picks [prediction] and [confidence]. *)
Definition decision (ai_probability human_probability : Q) : string * Q :=
  if Qlt_bool 0.6 ai_probability then ("AI"%string, ai_probability)
  else if Qlt_bool 0.6 human_probability
       then ("Human"%string, human_probability)
       else ("Uncertain"%string, py_max ai_probability human_probability).

(** [features.get(key, 0)] *)
Definition get_or_zero (features : gmap string Q) (key : string) : Q :=
  default 0 (features !! key).

(** [prediction.lower()] on the label. *)
Definition lower_label (prediction : string) : string :=
  string_of_list_ascii (lower (chars prediction)).

(** The result of the degenerate branch of [predict]. *)
Definition unknown_result : gmap string value :=
  {[ "prediction"%string := VStr "Unknown";
     "confidence"%string := VFloat 0.0;
     "ai_probability"%string := VFloat 0.5;
     "human_probability"%string := VFloat 0.5;
     "features"%string := VDict ∅;
     "message"%string := VStr "Text too short or invalid for analysis" ]}.

(** The exceptions that the scoring line of [predict] can raise. *)
Inductive exception : Type :=
  | OverflowError
  | ZeroDivisionError.

(** What a call comes to: the value it returns or the exception it
    raises. *)
Inductive outcome (A : Type) : Type :=
  | Returns (a : A)
  | Raises (error : exception).

Arguments Returns {A} a.
Arguments Raises {A} error.

Section Scoring.

(** [math.exp]: the value it returns, or [None] where it raises
    [OverflowError] (on doubles, for arguments above about 709.78). *)
Variable math_exp : Q → option Q.

(** [ai_probability = 1 / (1 + math.exp(-logit))]: the call of [math.exp]
    may raise, and so may the division when the divisor is zero. *)
Definition ai_probability (features : gmap string Q) : outcome Q :=
  match math_exp (- logit features) with
  | None => Raises OverflowError
  | Some e =>
      if Qeq_bool (1 + e) 0 then Raises ZeroDivisionError
      else Returns (1 / (1 + e))
  end.

(** [human_probability = 1 - ai_probability] *)
Definition human_probability (features : gmap string Q) : outcome Q :=
  match ai_probability features with
  | Returns ai_probability => Returns (1 - ai_probability)
  | Raises error => Raises error
  end.

Definition predict (text : str) : outcome (gmap string value) :=
  let features := extract_features text in
  if bool_decide (features = ∅) then Returns unknown_result
  else
    match ai_probability features with
    | Raises error => Raises error
    | Returns ai_probability =>
        let human_probability := 1 - ai_probability in
        let '(prediction, confidence) :=
          decision ai_probability human_probability in
        let word_count := len (_tokenize text) in
        Returns
          {[ "prediction"%string := VStr prediction;
             "confidence"%string := VFloat (py_round (confidence * 100) 1);
             "ai_probability"%string :=
               VFloat (py_round (ai_probability * 100) 1);
             "human_probability"%string :=
               VFloat (py_round (human_probability * 100) 1);
             "word_count"%string := VInt word_count;
             "features"%string :=
               VDict
                 {[ "avg_sentence_length"%string :=
                      py_round (get_or_zero features "avg_sentence_length") 2;
                    "vocabulary_richness"%string :=
                      py_round
                        (get_or_zero features "vocabulary_richness" * 100) 1;
                    "formality_score"%string :=
                      py_round
                        (get_or_zero features "formality_score" * 100) 1 ]};
             "message"%string :=
               VStr ("Analysis complete. The text appears to be "
                     +:+ lower_label prediction +:+ "-"
                     +:+ (if String.eqb prediction "AI" then "generated"
                          else "written")
                     +:+ ".") ]}
    end.

End Scoring.

(** ** Reference definitions used in the statements *)

(** The maximal runs of characters satisfying [p], in order of appearance. *)
Fixpoint runs_loop (p : ascii → bool) (fuel : nat) (s : str) : list str :=
  match fuel with
  | 0%nat => []
  | S fuel' =>
      match s with
      | [] => []
      | c :: s' =>
          if p c then take_while p s :: runs_loop p fuel' (drop_while p s)
          else runs_loop p fuel' s'
      end
  end.

Definition runs (p : ascii → bool) (s : str) : list str :=
  runs_loop p (length s) s.

Definition all_alpha (run : str) : bool := forallb is_alpha run.

(** The sliding windows of three consecutive words. *)
Fixpoint sliding3 (ws : list str) : list (list str) :=
  match ws with
  | a :: ((b :: c :: _) as tl) => [a; b; c] :: sliding3 tl
  | _ => []
  end.

(** The guard of [extract_features]: the text is empty or blank, or it has
    no word token, or no sentence. *)
Definition degenerate (text : str) : bool :=
  negb (nonempty text) || (length (strip text) =? 0)%nat
  || (length (_tokenize text) =? 0)%nat
  || (length (_split_sentences text) =? 0)%nat.

(** The ten feature names. *)
Definition feature_names : gset string :=
  list_to_set (map fst coefficients).

Definition not_terminator (c : ascii) : bool := negb (is_terminator c).

(** One round of the scoring loop of [predict]. *)
Definition logit_step (features : gmap string Q) (logit : Q)
  (item : string * Q) : Q :=
  let '(feature_name, coefficient) := item in
  match features !! feature_name with
  | Some value => (logit + coefficient * normalized feature_name value)%Q
  | None => logit
  end.

(** The characters that [_split_sentences] throws away. *)
Definition is_separator (c : ascii) : bool := is_terminator c || is_space c.

(** The features that are ratios of a part to the whole. *)
Definition ratio_features : list string :=
  ["vocabulary_richness"; "conjunction_freq"; "first_person_freq";
   "passive_voice_freq"; "repetition_score"; "formality_score"]%string.

(** ** Sample inputs *)

(** Fifty digits: long enough for the request handler to pass it on to
    [predict], and without a single word token. *)
Definition digits_only : str :=
  chars "12345678901234567890123456789012345678901234567890".

Definition sample_text : str :=
  chars "I think we should go. I feel we are ready.".

Definition sample_features : gmap string Q :=
  list_to_map
    [("avg_sentence_length", 5); ("vocabulary_richness", 0.8);
     ("punctuation_density", 0.2); ("conjunction_freq", 0);
     ("first_person_freq", 0.4); ("passive_voice_freq", 0.1);
     ("avg_word_length", 3.1); ("sentence_complexity", 0);
     ("repetition_score", 0); ("formality_score", 1)]%string%Q.

(** A stand-in for [math.exp] that raises where [math.exp] is out of range
    and returns 1 elsewhere. *)
Definition exp_capped : Q → option Q :=
  λ x, if Qle_bool 710 x then None else Some 1%Q.

(** The letter a followed by two thousand hyphens: one word, one sentence,
    a punctuation density of 2000. *)
Definition overflow_text : str := chars "a" ++ repeat "-"%char 2000.

(** * Properties *)

Local Close Scope Q_scope.

(** ** Characters *)

Lemma alpha_is_word c : is_alpha c = true → is_word c = true.
Proof.
  unfold is_word. intros ->. rewrite orb_true_r. reflexivity.
Qed.

Lemma alpha_not_terminator c : is_alpha c = true → is_terminator c = false.
Proof.
  destruct c as [[] [] [] [] [] [] [] []]; vm_compute; congruence.
Qed.

Lemma alpha_not_space c : is_alpha c = true → is_space c = false.
Proof.
  destruct c as [[] [] [] [] [] [] [] []]; vm_compute; congruence.
Qed.

(** ** Prefixes cut by a character class *)

Section While.
Variable p : ascii → bool.

Lemma take_drop_while s : take_while p s ++ drop_while p s = s.
Proof.
  induction s as [|c s IH]; simpl; [done|].
  destruct (p c); simpl; [by rewrite IH | done].
Qed.

Lemma take_take_while s : take (length (take_while p s)) s = take_while p s.
Proof.
  induction s as [|c s IH]; simpl; [done|].
  destruct (p c); simpl; [by rewrite IH | done].
Qed.

Lemma drop_take_while s : drop (length (take_while p s)) s = drop_while p s.
Proof.
  induction s as [|c s IH]; simpl; [done|].
  destruct (p c); simpl; [by rewrite IH | done].
Qed.

Lemma drop_while_length s : length (drop_while p s) ≤ length s.
Proof.
  induction s as [|c s IH]; simpl; [done|].
  destruct (p c); simpl; lia.
Qed.

Lemma take_while_all s : forallb p (take_while p s) = true.
Proof.
  induction s as [|c s IH]; simpl; [done|].
  destruct (p c) eqn:E; simpl; [by rewrite E | done].
Qed.

Lemma take_while_lookup s k :
  k < length (take_while p s) → ∃ c, s !! k = Some c ∧ p c = true.
Proof.
  revert k. induction s as [|c s IH]; simpl; intros k Hk; [lia|].
  destruct (p c) eqn:E; simpl in Hk; [|lia].
  destruct k as [|k]; [by exists c|].
  apply IH. lia.
Qed.

Lemma drop_while_head s : head (drop_while p s) = None ∨
  ∃ c, head (drop_while p s) = Some c ∧ p c = false.
Proof.
  induction s as [|c s IH]; simpl; [by left|].
  destruct (p c) eqn:E; [done|]. right. by exists c.
Qed.

Lemma drop_while_stop s :
  match s with [] => True | c :: _ => p c = false end →
  drop_while p s = s ∧ take_while p s = [].
Proof.
  destruct s as [|c s]; simpl; [done|]. by intros ->.
Qed.

Lemma drop_while_keeps s c :
  c ∈ s → p c = false → c ∈ drop_while p s.
Proof.
  induction s as [|x s IH]; simpl; intros Hin Hc; [done|].
  destruct (p x) eqn:E; [|done].
  apply elem_of_cons in Hin as [->|Hin]; [congruence|by apply IH].
Qed.
End While.

Lemma last_take_lookup {A} (s : list A) k :
  k < length s → last (take (S k) s) = s !! k.
Proof.
  revert k. induction s as [|c s IH]; simpl; intros k Hk; [lia|].
  destruct k as [|k].
  - by destruct s.
  - change ((c :: s) !! S k) with (s !! k).
    rewrite <- IH by lia. destruct s; simpl in *; [lia|done].
Qed.

Lemma head_drop_lookup {A} (s : list A) k : head (drop k s) = s !! k.
Proof.
  revert k. induction s as [|c s IH]; intros [|k]; simpl; auto.
Qed.

Lemma take_while_length_le p s : length (take_while p s) ≤ length s.
Proof.
  rewrite <- (take_drop_while p s) at 2. rewrite length_app. lia.
Qed.

(** ** Backtracking *)

Lemma backtrack_top {A} (try : nat → option A) K :
  (∀ k, 1 ≤ k < K → try k = None) →
  backtrack try K = match K with 0 => None | S _ => try K end.
Proof.
  intros Hnone. destruct K as [|K]; [done|]. simpl.
  destruct (try (S K)); [done|].
  assert (∀ k, k ≤ K → backtrack try k = None) as Hall; [|by apply Hall].
  induction k as [|k IH]; intros Hk; simpl; [done|].
  rewrite Hnone by lia. apply IH. lia.
Qed.

(** A match consumes a prefix of the text. *)
Lemma match_here_prefix r prev s m rest :
  match_here r prev s = Some (m, rest) → s = m ++ rest.
Proof.
  revert prev s m rest. induction r as [|a r IH]; intros prev s m rest; simpl.
  - by intros [= <- <-].
  - destruct a as [|cls|c].
    + destruct (at_boundary prev s); [apply IH|done].
    + generalize (length (take_while cls s)). intros K.
      induction K as [|K IHK]; simpl; [done|].
      destruct (match_here r (last (take (S K) s)) (drop (S K) s))
        as [[m' rest']|] eqn:E; simpl.
      * intros [= <- <-]. apply IH in E.
        rewrite <- (take_drop (S K) s) at 1. rewrite E.
        by rewrite app_assoc.
      * apply IHK.
    + destruct s as [|x s]; [done|].
      destruct (Ascii.eqb x c); [|done].
      destruct (match_here r (Some x) s) as [[m' rest']|] eqn:E; simpl; [|done].
      intros [= <- <-]. apply IH in E. by rewrite E.
Qed.

(** ** What the three patterns match *)

(** [[.!?]+] matches the longest run of terminators, when there is one. *)
Lemma match_sentence_end prev s :
  match_here sentence_end_re prev s =
  if nonempty (take_while is_terminator s)
  then Some (take_while is_terminator s, drop_while is_terminator s)
  else None.
Proof.
  unfold sentence_end_re. cbn [match_here].
  destruct (length (take_while is_terminator s)) as [|n] eqn:E.
  - by destruct (take_while is_terminator s).
  - cbn [backtrack prepend]. rewrite <- E, take_take_while, drop_take_while.
    rewrite app_nil_r. by destruct (take_while is_terminator s).
Qed.

(** [\b[a-zA-Z]+\b] matches the longest run of letters, and only if that
    run has a non-word character (or nothing) on either side. *)
Lemma match_word prev s :
  match_here word_re prev s =
  if at_boundary prev s && nonempty (take_while is_alpha s)
     && negb (is_word_opt (head (drop_while is_alpha s)))
  then Some (take_while is_alpha s, drop_while is_alpha s)
  else None.
Proof.
  unfold word_re. cbn [match_here].
  destruct (at_boundary prev s); cbn [andb]; [|done].
  rewrite backtrack_top.
  - destruct (length (take_while is_alpha s)) as [|n] eqn:E.
    { by destruct (take_while is_alpha s). }
    assert (nonempty (take_while is_alpha s) = true) as ->
      by (by destruct (take_while is_alpha s)).
    cbn [andb].
    destruct (take_while_lookup is_alpha s n) as (c & Hc & Hp); [lia|].
    rewrite last_take_lookup
      by (pose proof (take_while_length_le is_alpha s); lia).
    rewrite Hc. rewrite <- E, take_take_while, drop_take_while.
    unfold at_boundary. cbn [is_word_opt]. rewrite (alpha_is_word c Hp).
    cbn [xorb].
    destruct (is_word_opt (head (drop_while is_alpha s))); cbn [prepend negb];
      [done|].
    by rewrite app_nil_r.
  - intros [|k] Hk; [lia|].
    destruct (take_while_lookup is_alpha s k) as (c & Hc & Hp); [lia|].
    destruct (take_while_lookup is_alpha s (S k)) as (d & Hd & Hq); [lia|].
    rewrite last_take_lookup
      by (pose proof (take_while_length_le is_alpha s); lia).
    unfold at_boundary. rewrite head_drop_lookup, Hc, Hd.
    cbn [is_word_opt]. by rewrite (alpha_is_word c Hp), (alpha_is_word d Hq).
Qed.

(** ** Maximal runs *)

Lemma runs_loop_fuel p f1 f2 s :
  length s ≤ f1 → length s ≤ f2 → runs_loop p f1 s = runs_loop p f2 s.
Proof.
  revert f2 s. induction f1 as [|f1 IH]; intros f2 s H1 H2.
  - destruct s; [|simpl in H1; lia]. by destruct f2.
  - destruct f2 as [|f2]; [destruct s; [done|simpl in H2; lia]|].
    destruct s as [|c s]; [done|]. simpl in H1, H2. cbn [runs_loop].
    destruct (p c) eqn:E.
    + f_equal. pose proof (drop_while_length p (c :: s)) as Hd. simpl in Hd.
      apply IH.
      * simpl in *. rewrite E in *. pose proof (drop_while_length p s). lia.
      * simpl in *. rewrite E in *. pose proof (drop_while_length p s). lia.
    + apply IH; lia.
Qed.

Lemma runs_cons_true p c s :
  p c = true →
  runs p (c :: s) = take_while p (c :: s) :: runs p (drop_while p s).
Proof.
  intros E. unfold runs. cbn [length runs_loop]. rewrite E. f_equal.
  cbn [drop_while]. rewrite E.
  apply runs_loop_fuel; [apply drop_while_length|done].
Qed.

Lemma runs_cons_false p c s : p c = false → runs p (c :: s) = runs p s.
Proof.
  intros E. unfold runs. cbn [length runs_loop]. by rewrite E.
Qed.

(** Every run is a non-empty piece of the text made of [p]-characters. *)
Lemma runs_elem p s r :
  r ∈ runs p s → r ≠ [] ∧ ∀ c, c ∈ r → c ∈ s ∧ p c = true.
Proof.
  remember (length s) as n eqn:Hn. revert s Hn r.
  induction n as [n IH] using lt_wf_ind. intros s Hn r.
  destruct s as [|c s]; [by intros ?%elem_of_nil|].
  destruct (p c) eqn:E.
  - rewrite runs_cons_true by done. intros [->|Hin]%elem_of_cons.
    + split; [by cbn [take_while]; rewrite E|].
      intros d Hd. split.
      * rewrite <- (take_drop_while p (c :: s)). apply elem_of_app. by left.
      * pose proof (take_while_all p (c :: s)) as Hall.
        rewrite forallb_forall in Hall. apply Hall.
        by apply list_elem_of_In.
    + pose proof (drop_while_length p s) as Hlen.
      destruct (IH (length (drop_while p s)) ltac:(simpl in Hn; lia)
                  (drop_while p s) eq_refl r Hin) as [Hne Hall].
      split; [done|]. intros d Hd. destruct (Hall d Hd) as [Hds Hpd].
      split; [|done]. apply elem_of_cons. right.
      rewrite <- (take_drop_while p s). apply elem_of_app. by right.
  - rewrite runs_cons_false by done. intros Hin.
    destruct (IH (length s) ltac:(simpl in Hn; lia) s eq_refl r Hin)
      as [Hne Hall].
    split; [done|]. intros d Hd. destruct (Hall d Hd) as [Hds Hpd].
    split; [|done]. apply elem_of_cons. by right.
Qed.

Section SubClass.
Variables p q : ascii → bool.
Hypothesis sub : ∀ c, p c = true → q c = true.

Lemma take_while_sub s :
  take_while q s = take_while p s ++ take_while q (drop_while p s).
Proof.
  induction s as [|c s IH]; [done|]. cbn [take_while drop_while].
  destruct (p c) eqn:E.
  - rewrite (sub c E). simpl. by rewrite IH.
  - done.
Qed.

Lemma drop_while_sub s : drop_while q s = drop_while q (drop_while p s).
Proof.
  induction s as [|c s IH]; [done|]. cbn [drop_while].
  destruct (p c) eqn:E.
  - by rewrite (sub c E).
  - done.
Qed.
End SubClass.

(** ** The scan of the word pattern *)

Lemma head_not_word_stop s :
  is_word_opt (head s) = false →
  drop_while is_word s = s ∧ take_while is_word s = [].
Proof.
  intros H. apply drop_while_stop. by destruct s.
Qed.

(** Inside a run of word characters nothing matches; from the start of a
    run the whole run is taken when it consists of letters only. *)
Lemma findall_word fuel prev s :
  length s < fuel →
  findall_loop word_re fuel prev s =
  List.filter all_alpha
    (runs is_word (if is_word_opt prev then drop_while is_word s else s)).
Proof.
  revert prev s. induction fuel as [|fuel IH]; intros prev s Hlen; [lia|].
  cbn [findall_loop]. rewrite match_word.
  destruct s as [|c s].
  { cbn [take_while nonempty]. rewrite andb_false_r. cbn [andb].
    by destruct (is_word_opt prev). }
  cbn [length] in Hlen.
  unfold at_boundary. cbn [head is_word_opt].
  destruct (is_word c) eqn:Hw.
  - destruct (is_word_opt prev) eqn:Hprev; cbn [xorb andb].
    + (* inside a run *)
      rewrite IH by lia. cbn [is_word_opt drop_while]. by rewrite Hw.
    + (* at the start of a run *)
      rewrite (runs_cons_true is_word c s Hw). cbn [List.filter].
      destruct (is_alpha c) eqn:Ha.
      * cbn [take_while drop_while nonempty andb]. rewrite Ha.
        cbn [nonempty andb].
        destruct (is_word_opt (head (drop_while is_alpha s))) eqn:Hr;
          cbn [negb].
        -- rewrite IH by lia. cbn [is_word_opt]. rewrite Hw.
           replace (all_alpha (c :: take_while is_word s)) with false;
             [done|].
           unfold all_alpha. cbn [forallb]. rewrite Ha. cbn [andb].
           rewrite (take_while_sub is_alpha is_word alpha_is_word).
           destruct (drop_while_head is_alpha s) as [Hn|(d & Hd & Hnd)].
           { rewrite Hn in Hr. discriminate. }
           destruct (drop_while is_alpha s) as [|d' rest]; [done|].
           cbn [head] in Hd, Hr. injection Hd as ->. cbn [is_word_opt] in Hr.
           cbn [take_while]. rewrite Hr.
           rewrite forallb_app. cbn [forallb]. rewrite Hnd.
           by rewrite andb_false_r.
        -- destruct (head_not_word_stop _ Hr) as [Hdrop Htake].
           rewrite IH
             by (pose proof (drop_while_length is_alpha s); lia).
           rewrite Hdrop, Hw.
           replace (take_while is_word s) with (take_while is_alpha s).
           2:{ rewrite (take_while_sub is_alpha is_word alpha_is_word s).
               by rewrite Htake, app_nil_r. }
           replace (all_alpha (c :: take_while is_alpha s)) with true.
           2:{ unfold all_alpha. cbn [forallb].
               by rewrite Ha, take_while_all. }
           rewrite (drop_while_sub is_alpha is_word alpha_is_word s), Hdrop.
           by destruct (is_word_opt (last (c :: take_while is_alpha s))).
      * cbn [take_while]. rewrite Ha. cbn [nonempty andb].
        rewrite IH by lia. cbn [is_word_opt]. rewrite Hw.
        unfold all_alpha. cbn [forallb].
        by rewrite Ha.
  - assert (is_alpha c = false) as Ha.
    { destruct (is_alpha c) eqn:Ha; [|done].
      by rewrite (alpha_is_word c Ha) in Hw. }
    cbn [take_while]. rewrite Ha. cbn [nonempty]. rewrite andb_false_r.
    cbn [andb]. rewrite IH by lia. cbn [is_word_opt]. rewrite Hw.
    cbn [drop_while]. rewrite Hw.
    by destruct (is_word_opt prev); rewrite (runs_cons_false is_word c s Hw).
Qed.

(** The word tokens are the maximal runs of word characters that consist of
    ASCII letters only. *)
Lemma tokenize_runs text :
  _tokenize text = List.filter all_alpha (runs is_word text).
Proof.
  unfold _tokenize, re_findall. rewrite findall_word by lia. done.
Qed.

(** A text with a word token contains a letter. *)
Lemma tokenize_has_alpha text :
  _tokenize text ≠ [] → ∃ c, c ∈ text ∧ is_alpha c = true.
Proof.
  rewrite tokenize_runs. intros Hne.
  destruct (List.filter all_alpha (runs is_word text)) as [|r l] eqn:E;
    [done|].
  assert (In r (List.filter all_alpha (runs is_word text))) as Hin
    by (rewrite E; by left).
  apply filter_In in Hin as [Hin Hall].
  apply list_elem_of_In, runs_elem in Hin as [Hr Hsub].
  destruct r as [|c r]; [done|]. exists c. split.
  - apply Hsub. by left.
  - unfold all_alpha in Hall. cbn [forallb] in Hall.
    by apply andb_true_iff in Hall as [? _].
Qed.

(** ** The scan of the sentence pattern *)

Lemma filter_drop_terminators s :
  List.filter not_terminator (drop_while is_terminator s) =
  List.filter not_terminator s.
Proof.
  induction s as [|c s IH]; [done|]. cbn [drop_while].
  destruct (is_terminator c) eqn:E; [|done].
  cbn [List.filter].
  replace (not_terminator c) with false
    by (unfold not_terminator; by rewrite E).
  done.
Qed.

(** The pieces of the split, put together, are the text without its
    terminators. *)
Lemma split_loop_concat fuel prev cur s :
  length s < fuel →
  concat (split_loop sentence_end_re fuel prev cur s) =
  rev cur ++ List.filter not_terminator s.
Proof.
  revert prev cur s. induction fuel as [|fuel IH]; intros prev cur s Hlen;
    [lia|].
  cbn [split_loop]. destruct s as [|c s].
  { cbn [concat List.filter]. done. }
  cbn [length] in Hlen. rewrite match_sentence_end.
  cbn [take_while drop_while List.filter].
  replace (not_terminator c) with (negb (is_terminator c)) by done.
  destruct (is_terminator c) eqn:E; cbn [nonempty negb].
  - cbn [concat]. rewrite IH
      by (pose proof (drop_while_length is_terminator s); lia).
    cbn [rev app]. by rewrite filter_drop_terminators.
  - rewrite IH by lia. cbn [rev]. by rewrite <- app_assoc.
Qed.

Lemma strip_keeps s c : In c s → is_space c = false → In c (strip s).
Proof.
  intros Hin Hc. unfold strip. apply -> in_rev.
  apply list_elem_of_In, drop_while_keeps; [|done].
  apply list_elem_of_In. apply -> in_rev.
  apply list_elem_of_In, drop_while_keeps; [|done].
  by apply list_elem_of_In.
Qed.

(** A character that is neither a terminator nor blank puts its piece among
    the sentences. *)
Lemma split_sentences_nonempty text c :
  c ∈ text → is_terminator c = false → is_space c = false →
  _split_sentences text ≠ [].
Proof.
  intros Hin Hterm Hspace.
  assert (In c (concat (re_split sentence_end_re text))) as Hc.
  { unfold re_split. rewrite split_loop_concat by lia. cbn [rev app].
    apply filter_In. split; [by apply list_elem_of_In|].
    unfold not_terminator. by rewrite Hterm. }
  apply in_concat in Hc as (piece & Hpiece & Hcp).
  pose proof (strip_keeps piece c Hcp Hspace) as Hstrip.
  unfold _split_sentences. intros Hnil. apply map_eq_nil in Hnil.
  assert (piece ∈ filter (λ s, nonempty (strip s) = true)
                    (re_split sentence_end_re text)) as Hfil.
  { apply list_elem_of_filter. split; [|by apply list_elem_of_In].
    by destruct (strip piece). }
  rewrite Hnil in Hfil. by apply elem_of_nil in Hfil.
Qed.

(** A text with a word token has a sentence. *)
Lemma tokens_have_sentence text :
  _tokenize text ≠ [] → _split_sentences text ≠ [].
Proof.
  intros (c & Hin & Ha)%tokenize_has_alpha.
  apply (split_sentences_nonempty text c Hin).
  - by apply alpha_not_terminator.
  - by apply alpha_not_space.
Qed.

(** ** Feature vectors *)

Lemma length_zero_nil {A} (l : list A) : (length l =? 0) = true ↔ l = [].
Proof.
  destruct l; simpl; split; done.
Qed.

Lemma degenerate_spec text :
  degenerate text = true ↔
  text = [] ∨ strip text = [] ∨ _tokenize text = [] ∨
  _split_sentences text = [].
Proof.
  unfold degenerate. rewrite !orb_true_iff, !length_zero_nil.
  assert (negb (nonempty text) = true ↔ text = []) as ->
    by (destruct text; simpl; split; done).
  tauto.
Qed.

Lemma extract_features_degenerate text :
  degenerate text = true → extract_features text = ∅.
Proof.
  unfold degenerate, extract_features.
  destruct (negb (nonempty text) || (length (strip text) =? 0)); [done|].
  cbn [orb]. by intros ->.
Qed.

Lemma extract_features_dom text :
  degenerate text = false → dom (extract_features text) = feature_names.
Proof.
  unfold degenerate, extract_features.
  destruct (negb (nonempty text) || (length (strip text) =? 0)); [done|].
  cbn [orb]. intros ->. cbv zeta.
  rewrite !dom_insert_L, dom_empty_L.
  unfold feature_names, coefficients. cbn [map fst list_to_set].
  set_solver.
Qed.

Lemma extract_features_empty_iff text :
  extract_features text = ∅ ↔ degenerate text = true.
Proof.
  split; [|apply extract_features_degenerate].
  destruct (degenerate text) eqn:E; [done|].
  intros Hempty. pose proof (extract_features_dom text E) as Hdom.
  rewrite Hempty, dom_empty_L in Hdom.
  assert ("formality_score"%string ∈ feature_names) as Hin
    by (unfold feature_names, coefficients; cbn [map fst list_to_set];
        set_solver).
  rewrite <- Hdom in Hin. by apply not_elem_of_empty in Hin.
Qed.

(** A feature vector that is not empty answers for each of the ten names. *)
Lemma feature_vector_complete text name :
  extract_features text ≠ ∅ → name ∈ feature_names →
  is_Some (extract_features text !! name).
Proof.
  intros Hne Hin. apply elem_of_dom.
  destruct (degenerate text) eqn:E.
  - by apply extract_features_degenerate in E.
  - by rewrite extract_features_dom.
Qed.

(** ** The result dictionary *)

Section Results.
Variable math_exp : Q → option Q.

Lemma predict_degenerate text :
  extract_features text = ∅ →
  predict math_exp text = Returns unknown_result.
Proof.
  intros H. unfold predict. rewrite H. by rewrite bool_decide_eq_true_2.
Qed.

(** Outside the degenerate branch [predict] raises what the scoring line
    raises. *)
Lemma predict_raises text error :
  extract_features text ≠ ∅ →
  ai_probability math_exp (extract_features text) = Raises error →
  predict math_exp text = Raises error.
Proof.
  intros H Hai. unfold predict. rewrite bool_decide_eq_false_2 by done.
  by rewrite Hai.
Qed.

(** The fields of a result returned outside the degenerate branch. *)
Lemma predict_returns_inv text r :
  extract_features text ≠ ∅ →
  predict math_exp text = Returns r →
  ∃ ai,
    ai_probability math_exp (extract_features text) = Returns ai ∧
    r !! "prediction"%string = Some (VStr (decision ai (1 - ai)).1) ∧
    r !! "confidence"%string =
      Some (VFloat (py_round ((decision ai (1 - ai)).2 * 100) 1)) ∧
    r !! "ai_probability"%string = Some (VFloat (py_round (ai * 100) 1)) ∧
    r !! "human_probability"%string =
      Some (VFloat (py_round ((1 - ai) * 100) 1)) ∧
    r !! "word_count"%string = Some (VInt (len (_tokenize text))).
Proof.
  intros H. unfold predict. rewrite bool_decide_eq_false_2 by done.
  destruct (ai_probability math_exp (extract_features text)) as [ai|error];
    [|done].
  destruct (decision ai (1 - ai)) as [prediction confidence] eqn:E.
  intros [= <-]. exists ai. split; [done|]. rewrite E. cbn [fst snd].
  by simplify_map_eq.
Qed.
End Results.

(** ** Comparisons, clamping and rounding *)

Lemma Qlt_bool_true a b : Qlt_bool a b = true ↔ (a < b)%Q.
Proof.
  unfold Qlt_bool. rewrite negb_true_iff. split.
  - intros H. apply Qnot_le_lt. intros Hle%Qle_bool_iff. congruence.
  - intros H. destruct (Qle_bool b a) eqn:E; [|done].
    apply Qle_bool_iff in E. exfalso. by apply (Qlt_not_le _ _ H).
Qed.

Lemma Qlt_bool_false a b : Qlt_bool a b = false ↔ (b <= a)%Q.
Proof.
  unfold Qlt_bool. rewrite negb_false_iff. apply Qle_bool_iff.
Qed.

Lemma py_max_spec a b : (py_max a b == Qmax a b)%Q.
Proof.
  unfold py_max. destruct (Qlt_bool a b) eqn:E.
  - apply Qlt_bool_true in E. symmetry. apply Q.max_r. lra.
  - apply Qlt_bool_false in E. symmetry. by apply Q.max_l.
Qed.

Lemma py_min_spec a b : (py_min a b == Qmin a b)%Q.
Proof.
  unfold py_min. destruct (Qlt_bool b a) eqn:E.
  - apply Qlt_bool_true in E. symmetry. apply Q.min_r. lra.
  - apply Qlt_bool_false in E. symmetry. by apply Q.min_l.
Qed.

(** The clamp of [_calculate_formality] lands in the unit interval. *)
Lemma clamp_unit x : (0 <= py_max 0 (py_min 1 x) <= 1)%Q.
Proof.
  unfold py_max, py_min.
  destruct (Qlt_bool x 1) eqn:E1.
  - apply Qlt_bool_true in E1. destruct (Qlt_bool 0 x) eqn:E2.
    + apply Qlt_bool_true in E2. lra.
    + lra.
  - destruct (Qlt_bool 0 1) eqn:E2; lra.
Qed.

(** ** Trigrams *)

Lemma fold_left_append {A B} (f : A → B) (l : list A) (acc : list B) :
  fold_left (λ acc i, acc ++ [f i]) l acc = acc ++ map f l.
Proof.
  revert acc. induction l as [|x l IH]; intros acc; cbn [fold_left map].
  - by rewrite app_nil_r.
  - rewrite IH, <- app_assoc. done.
Qed.

(** The slices [words[i:i+3]] for [i] in [range(len(words) - 2)] are the
    sliding windows of three words. *)
Lemma slices_sliding3 (words : list str) :
  map (λ i, take 3 (drop i words)) (seq 0 (length words - 2)) =
  sliding3 words.
Proof.
  induction words as [|a tl IH]; [done|].
  destruct tl as [|b [|c rest]]; [done|done|].
  change (length (a :: b :: c :: rest) - 2) with (S (length rest)).
  replace (length (b :: c :: rest) - 2) with (length rest) in IH
    by (simpl; lia).
  cbn [seq map]. rewrite <- seq_shift, map_map.
  cbn [sliding3]. f_equal. exact IH.
Qed.

Lemma trigrams_of_sliding3 words :
  trigrams_of words = map (λ w, lower (join_space w)) (sliding3 words).
Proof.
  unfold trigrams_of.
  rewrite (fold_left_append
             (λ i, lower (join_space (take 3 (drop i words))))).
  cbn [app]. rewrite <- slices_sliding3, map_map. done.
Qed.

(** ** The argument of the exponential on the overflow text *)

(** On the letter a followed by two thousand hyphens the feature vector is
    not empty and the logit is -1000.985. *)
Lemma overflow_text_logit :
  extract_features overflow_text ≠ ∅ ∧
  (logit (extract_features overflow_text) == -1000.985)%Q.
Proof.
  split.
  - intros H%extract_features_empty_iff. vm_compute in H. discriminate.
  - vm_compute. reflexivity.
Qed.

(** * The claims *)

(** ** C1: the degenerate result *)

(** C1.  On a text whose feature vector is empty, [predict] returns the
    [Unknown] record; its two probabilities are 0.5, not the 50.0 that the
    percent scale of every other result calls for.  Evaluated on fifty
    digits. *)
Theorem predict_unknown_probabilities (math_exp : Q → option Q) :
  (∀ text, extract_features text = ∅ →
           predict math_exp text = Returns unknown_result) ∧
  extract_features digits_only = ∅ ∧
  predict math_exp digits_only = Returns unknown_result ∧
  unknown_result !! "prediction"%string = Some (VStr "Unknown") ∧
  unknown_result !! "confidence"%string = Some (VFloat 0.0) ∧
  unknown_result !! "ai_probability"%string = Some (VFloat 0.5) ∧
  unknown_result !! "human_probability"%string = Some (VFloat 0.5) ∧
  ¬ (0.5 == 50.0)%Q.
Proof.
  assert (extract_features digits_only = ∅) as Hempty.
  { apply extract_features_degenerate. vm_compute. reflexivity. }
  split; [apply predict_degenerate|].
  split; [done|]. split; [by apply predict_degenerate|].
  do 4 (split; [vm_compute; reflexivity|]).
  intros H. vm_compute in H. discriminate.
Qed.

(** ** C2: the word count *)

(** C2.  The degenerate result has no [word_count] entry at all, although
    the text has a (zero) word count and every other returned result
    carries the entry.  Evaluated on fifty digits. *)
Theorem predict_unknown_word_count (math_exp : Q → option Q) :
  predict math_exp digits_only = Returns unknown_result ∧
  unknown_result !! "word_count"%string = None ∧
  len (_tokenize digits_only) = 0%Z ∧
  (∀ text r, extract_features text ≠ ∅ →
             predict math_exp text = Returns r →
             r !! "word_count"%string = Some (VInt (len (_tokenize text)))).
Proof.
  split; [|split; [vm_compute; reflexivity|split]].
  - apply predict_degenerate, extract_features_degenerate.
    vm_compute. reflexivity.
  - vm_compute. reflexivity.
  - intros text r Hne Hr.
    by destruct (predict_returns_inv math_exp text r Hne Hr)
      as (ai & _ & _ & _ & _ & _ & Hwc).
Qed.

(** ** C3: word tokens *)

(** C3, as stated, fails: the letters of [abc123] are a maximal alphabetic
    run, yet no token is produced for them. *)
Lemma tokenize_not_alpha_runs :
  _tokenize (chars "abc123") = [] ∧
  runs is_alpha (chars "abc123") = [chars "abc"] ∧
  ¬ (_tokenize (chars "abc123") = runs is_alpha (chars "abc123")).
Proof.
  do 2 (split; [vm_compute; reflexivity|]).
  intros H. vm_compute in H. discriminate.
Qed.

(** C3, amended.  [_tokenize] returns, case preserved and in order of
    appearance, the maximal runs of word characters (letters, digits,
    underscore) that consist of ASCII letters only: an alphabetic run is a
    token exactly when neither neighbour is a word character. *)
Theorem tokenize_whole_words text :
  _tokenize text = List.filter all_alpha (runs is_word text).
Proof.
  apply tokenize_runs.
Qed.

(** ** C4: the scorer *)

(** C4.  On the letter a followed by two thousand hyphens the feature
    vector is not empty and its logit is -1000.985, so the scorer calls
    [math.exp] at 1000.985; that call is out of range and raises
    [OverflowError], and no probability is computed, where the sigmoid of
    the claim is a number close to 0. *)
Theorem scorer_overflow (math_exp : Q → option Q) :
  (∀ x, (710 <= x)%Q → math_exp x = None) →
  extract_features overflow_text ≠ ∅ ∧
  (logit (extract_features overflow_text) == -1000.985)%Q ∧
  ai_probability math_exp (extract_features overflow_text) =
    Raises OverflowError ∧
  human_probability math_exp (extract_features overflow_text) =
    Raises OverflowError.
Proof.
  intros Hrange. destruct overflow_text_logit as [Hne Hlogit].
  split; [done|]. split; [done|].
  assert (ai_probability math_exp (extract_features overflow_text) =
          Raises OverflowError) as Hai.
  { unfold ai_probability. rewrite Hrange; [done|].
    rewrite Hlogit. vm_compute. discriminate. }
  split; [done|]. unfold human_probability. by rewrite Hai.
Qed.

Lemma scorer_overflow_witness :
  (∀ x, (710 <= x)%Q → exp_capped x = None) ∧
  ai_probability exp_capped (extract_features overflow_text) =
    Raises OverflowError.
Proof.
  assert (∀ x, (710 <= x)%Q → exp_capped x = None) as Hrange.
  { intros x Hx. unfold exp_capped.
    by rewrite (proj2 (Qle_bool_iff 710 x) Hx). }
  split; [exact Hrange|].
  exact (proj1 (proj2 (proj2 (scorer_overflow exp_capped Hrange)))).
Defined.

(** ** C5: the decision rule *)

(** C5.  The letter a followed by two thousand hyphens is not degenerate,
    yet [predict] decides no label for it: the call raises
    [OverflowError] before the decision is reached. *)
Theorem decision_overflow (math_exp : Q → option Q) :
  (∀ x, (710 <= x)%Q → math_exp x = None) →
  _tokenize overflow_text = [chars "a"] ∧
  extract_features overflow_text ≠ ∅ ∧
  predict math_exp overflow_text = Raises OverflowError.
Proof.
  intros Hrange. destruct overflow_text_logit as [Hne Hlogit].
  split; [vm_compute; reflexivity|]. split; [done|].
  apply predict_raises; [done|].
  unfold ai_probability. rewrite Hrange; [done|].
  rewrite Hlogit. vm_compute. discriminate.
Qed.

Lemma decision_overflow_witness :
  (∀ x, (710 <= x)%Q → exp_capped x = None) ∧
  predict exp_capped overflow_text = Raises OverflowError.
Proof.
  assert (∀ x, (710 <= x)%Q → exp_capped x = None) as Hrange.
  { intros x Hx. unfold exp_capped.
    by rewrite (proj2 (Qle_bool_iff 710 x) Hx). }
  split; [exact Hrange|].
  exact (proj2 (proj2 (decision_overflow exp_capped Hrange))).
Defined.

(** ** C6: empty or complete feature vectors *)

(** C6.  [extract_features] returns the empty mapping exactly when the text
    is empty or blank, or has no word token, or no sentence; any other
    result has the ten feature names as its keys. *)
Theorem feature_vector_all_or_nothing text :
  (extract_features text = ∅ ↔
   text = [] ∨ strip text = [] ∨ _tokenize text = [] ∨
   _split_sentences text = []) ∧
  (extract_features text = ∅ ∨
   dom (extract_features text) = feature_names) ∧
  size feature_names = 10.
Proof.
  split; [|split].
  - rewrite extract_features_empty_iff. apply degenerate_spec.
  - destruct (degenerate text) eqn:E.
    + left. by apply extract_features_degenerate.
    + right. by apply extract_features_dom.
  - vm_compute. reflexivity.
Qed.

Lemma feature_vector_all_or_nothing_witness :
  extract_features digits_only = ∅ ∧
  dom (extract_features sample_text) = feature_names.
Proof.
  split.
  - apply (feature_vector_all_or_nothing digits_only). right. right. left.
    vm_compute. reflexivity.
  - destruct (feature_vector_all_or_nothing sample_text)
      as (Hiff & [Hempty|Hdom] & _); [|exact Hdom].
    apply Hiff in Hempty. vm_compute in Hempty.
    by destruct Hempty as [?|[?|[?|?]]].
Defined.

(** ** C7: the repetition score *)

(** C7.  With fewer than four words the repetition score is 0; with three
    words or more it is 1 minus the number of distinct lowercased trigrams
    over the number of trigrams, the trigrams being the sliding windows of
    three consecutive words joined by single spaces. *)
Theorem repetition_score_formula (words : list str) :
  (length words < 4 → _calculate_repetition words = 0%Q) ∧
  (3 ≤ length words →
   let trigrams := map (λ w, lower (join_space w)) (sliding3 words) in
   (_calculate_repetition words ==
    1 - inject_Z (Z.of_nat (size (list_to_set trigrams : gset str)))
        / inject_Z (Z.of_nat (length trigrams)))%Q).
Proof.
  split.
  - intros H. unfold _calculate_repetition.
    by rewrite (proj2 (Nat.ltb_lt _ _) H).
  - intros H trigrams. unfold _calculate_repetition.
    destruct (length words <? 4) eqn:E.
    + apply Nat.ltb_lt in E.
      destruct words as [|a [|b [|c [|d rest]]]]; simpl in H, E; try lia.
      subst trigrams. cbn [sliding3 map length].
      rewrite size_list_to_set by (apply NoDup_singleton).
      vm_compute. reflexivity.
    + apply Nat.ltb_ge in E. rewrite trigrams_of_sliding3. fold trigrams.
      assert (nonempty trigrams = true) as ->.
      { subst trigrams.
        destruct words as [|a [|b [|c [|d rest]]]]; simpl in E; try lia.
        done. }
      cbn [negb]. reflexivity.
Qed.

Lemma repetition_score_formula_witness :
  _calculate_repetition (chars <$> ["a"; "b"; "c"]%string) = 0%Q ∧
  (_calculate_repetition (chars <$> ["A"; "b"; "c"; "a"; "B"; "c"]%string)
   == 1 - 3 / 4)%Q.
Proof.
  split.
  - apply (repetition_score_formula (chars <$> ["a"; "b"; "c"]%string)).
    vm_compute. lia.
  - destruct (repetition_score_formula
                (chars <$> ["A"; "b"; "c"; "a"; "B"; "c"]%string))
      as [_ H].
    rewrite H by (vm_compute; lia). vm_compute. reflexivity.
Defined.

Example repetition_five_tests :
  (_calculate_repetition
     (chars <$> ["test"; "test"; "test"; "test"; "test"]%string)
   == 2 # 3)%Q.
Proof. vm_compute. reflexivity. Qed.

(** ** C8: the formality score *)

(** C8.  Without words the formality score is 0.5; with words it is
    1 - (2 * contraction ratio + informal-word ratio) clamped to the unit
    interval; in every case it lies between 0 and 1. *)
Theorem formality_clamped (text : str) (words : list str) :
  (words = [] → _calculate_formality text words = 0.5%Q) ∧
  (words ≠ [] →
   let contraction_ratio :=
     truediv (len (re_findall contraction_re (lower text))) (len words) in
   let informal_ratio :=
     truediv (count_if (λ word, in_set (lower word) informal_markers) words)
             (len words) in
   (_calculate_formality text words ==
    Qmax 0 (Qmin 1 (1 - (2 * contraction_ratio + informal_ratio))))%Q) ∧
  (0 <= _calculate_formality text words <= 1)%Q.
Proof.
  split; [|split].
  - by intros ->.
  - intros Hne cr ir. unfold _calculate_formality.
    destruct words as [|w ws]; [done|]. cbn [nonempty negb].
    fold cr ir. rewrite py_max_spec.
    apply Q.max_compat; [reflexivity|]. rewrite py_min_spec.
    apply Q.min_compat; [reflexivity|]. ring.
  - unfold _calculate_formality. destruct (negb (nonempty words)).
    + split; vm_compute; discriminate.
    + apply clamp_unit.
Qed.

Lemma formality_clamped_witness :
  (0 <= _calculate_formality (chars "1'a 2'b") (_tokenize (chars "1'a 2'b"))
     <= 1)%Q ∧
  _calculate_formality (chars "") [] = 0.5%Q.
Proof.
  split.
  - apply (formality_clamped (chars "1'a 2'b")
             (_tokenize (chars "1'a 2'b"))).
  - by apply (formality_clamped (chars "") []).
Defined.

Example formality_many_contractions :
  let text := chars "1'a 2'b" in
  _tokenize text = chars <$> ["a"; "b"]%string ∧
  re_findall contraction_re (lower text) = chars <$> ["1'a"; "2'b"]%string ∧
  (_calculate_formality text (_tokenize text) == 0)%Q.
Proof. vm_compute. repeat split; reflexivity. Qed.

(** ** C9: the reported probabilities *)

(** C9.  For the letter a followed by two thousand hyphens, a text that is
    not degenerate, [predict] returns no result, so there are no two
    probability fields to add up: the call raises [OverflowError]. *)
Theorem probabilities_overflow (math_exp : Q → option Q) :
  (∀ x, (710 <= x)%Q → math_exp x = None) →
  extract_features overflow_text ≠ ∅ ∧
  ¬ (∃ r a h,
       predict math_exp overflow_text = Returns r ∧
       r !! "ai_probability"%string = Some (VFloat a) ∧
       r !! "human_probability"%string = Some (VFloat h)).
Proof.
  intros Hrange. destruct overflow_text_logit as [Hne Hlogit].
  split; [done|]. intros (r & a & h & Hr & _).
  rewrite (predict_raises math_exp overflow_text OverflowError) in Hr;
    [done|done|].
  unfold ai_probability. rewrite Hrange; [done|].
  rewrite Hlogit. vm_compute. discriminate.
Qed.

Lemma probabilities_overflow_witness :
  (∀ x, (710 <= x)%Q → exp_capped x = None) ∧
  ¬ (∃ r a h,
       predict exp_capped overflow_text = Returns r ∧
       r !! "ai_probability"%string = Some (VFloat a) ∧
       r !! "human_probability"%string = Some (VFloat h)).
Proof.
  assert (∀ x, (710 <= x)%Q → exp_capped x = None) as Hrange.
  { intros x Hx. unfold exp_capped.
    by rewrite (proj2 (Qle_bool_iff 710 x) Hx). }
  split; [exact Hrange|].
  exact (proj2 (probabilities_overflow exp_capped Hrange)).
Defined.

(** ** C10: words imply sentences *)

(** C10.  A text with a word token has a sentence; so the guard on words
    and sentences fires exactly when there is no word, and with a word the
    word count, the sentence count and the number of sentence lengths that
    feature extraction divides by are all positive. *)
Theorem words_guarantee_sentences (text : str) :
  let words := _tokenize text in
  let sentences := _split_sentences text in
  let sentence_lengths := map (λ s, len (_tokenize s)) sentences in
  (words ≠ [] → sentences ≠ []) ∧
  ((length words =? 0) || (length sentences =? 0) = (length words =? 0)) ∧
  (words ≠ [] →
   (0 < len words)%Z ∧ (0 < len sentences)%Z ∧
   (0 < len sentence_lengths)%Z).
Proof.
  intros words sentences sentence_lengths.
  pose proof (tokens_have_sentence text) as H. fold words sentences in H.
  subst sentence_lengths. unfold len. rewrite length_map.
  clearbody words sentences.
  split; [exact H|]. split.
  - destruct words as [|w ws]; [done|].
    destruct sentences as [|s ss]; [by destruct H|done].
  - intros Hw. specialize (H Hw).
    destruct words, sentences; simpl; try done; lia.
Qed.

Lemma words_guarantee_sentences_witness :
  _tokenize sample_text ≠ [] ∧ _split_sentences sample_text ≠ [] ∧
  (0 < len (_split_sentences sample_text))%Z.
Proof.
  assert (_tokenize sample_text ≠ []) as Hw.
  { intros H. vm_compute in H. discriminate. }
  destruct (words_guarantee_sentences sample_text) as (Hs & _ & Hdiv).
  split; [exact Hw|]. split; [exact (Hs Hw)|].
  exact (proj1 (proj2 (Hdiv Hw))).
Defined.

(** * Further properties of the pipeline *)

(** ** More on characters, runs and trimming *)

Lemma space_not_word c : is_space c = true → is_word c = false.
Proof.
  destruct c as [[] [] [] [] [] [] [] []]; vm_compute; congruence.
Qed.

Lemma terminator_not_word c : is_terminator c = true → is_word c = false.
Proof.
  destruct c as [[] [] [] [] [] [] [] []]; vm_compute; congruence.
Qed.

Lemma take_while_forall p s : forallb p s = true → take_while p s = s.
Proof.
  induction s as [|c s IH]; [done|]. cbn [forallb take_while].
  intros [-> H]%andb_true_iff. by rewrite IH.
Qed.

Lemma drop_while_forall p s : forallb p s = true → drop_while p s = [].
Proof.
  induction s as [|c s IH]; [done|]. cbn [forallb drop_while].
  intros [-> H]%andb_true_iff. by apply IH.
Qed.

(** A non-empty string of [p]-characters is its own single run. *)
Lemma runs_single p w :
  w ≠ [] → forallb p w = true → runs p w = [w].
Proof.
  intros Hne Hall. destruct w as [|c w]; [done|].
  pose proof Hall as Hall'. cbn [forallb] in Hall'.
  apply andb_true_iff in Hall' as [Hc Hw].
  rewrite runs_cons_true by done.
  rewrite (take_while_forall p _ Hall), (drop_while_forall p _ Hw). done.
Qed.

Lemma runs_no_p p s :
  forallb (λ c, negb (p c)) s = true → runs p s = [].
Proof.
  induction s as [|c s IH]; [done|]. cbn [forallb].
  intros [Hc H]%andb_true_iff. apply negb_true_iff in Hc.
  rewrite runs_cons_false by done. by apply IH.
Qed.

(** Leading characters outside [p] do not change the runs. *)
Lemma runs_skip p l s :
  forallb (λ c, negb (p c)) l = true → runs p (l ++ s) = runs p s.
Proof.
  induction l as [|c l IH]; [done|]. cbn [forallb app].
  intros [Hc H]%andb_true_iff. apply negb_true_iff in Hc.
  rewrite runs_cons_false by done. by apply IH.
Qed.

Lemma take_while_app_stop p a t b :
  p t = false → take_while p (a ++ t :: b) = take_while p a.
Proof.
  intros Ht. induction a as [|c a IH]; cbn [app take_while].
  - by rewrite Ht.
  - destruct (p c); [by rewrite IH|done].
Qed.

Lemma drop_while_app_stop p a t b :
  p t = false → drop_while p (a ++ t :: b) = drop_while p a ++ t :: b.
Proof.
  intros Ht. induction a as [|c a IH]; cbn [app drop_while].
  - by rewrite Ht.
  - destruct (p c); [by rewrite IH|done].
Qed.

(** A character outside [p] separates the runs on its two sides. *)
Lemma runs_app_sep p a t b :
  p t = false → runs p (a ++ t :: b) = runs p a ++ runs p b.
Proof.
  intros Ht. remember (length a) as n eqn:Hn. revert a Hn.
  induction n as [n IH] using lt_wf_ind. intros a Hn.
  destruct a as [|c a]; cbn [app].
  - by rewrite runs_cons_false.
  - destruct (p c) eqn:Hc.
    + rewrite !runs_cons_true by done.
      change (c :: a ++ t :: b) with ((c :: a) ++ t :: b).
      rewrite take_while_app_stop, drop_while_app_stop by done.
      rewrite (IH (length (drop_while p a))); [done| |done].
      pose proof (drop_while_length p a). simpl in Hn. lia.
    + rewrite !runs_cons_false by done.
      apply (IH (length a)); [simpl in Hn; lia|done].
Qed.

(** Trailing characters outside [p] do not change the runs. *)
Lemma runs_trail p s l :
  forallb (λ c, negb (p c)) l = true → runs p (s ++ l) = runs p s.
Proof.
  destruct l as [|t l]; [by rewrite app_nil_r|]. cbn [forallb].
  intros [Ht H]%andb_true_iff. apply negb_true_iff in Ht.
  rewrite runs_app_sep by done. by rewrite (runs_no_p p l H), app_nil_r.
Qed.

(** [strip] cuts a blank prefix and a blank suffix off the string. *)
Lemma strip_decompose s :
  ∃ lead trail,
    s = lead ++ strip s ++ trail ∧
    forallb is_space lead = true ∧ forallb is_space trail = true.
Proof.
  exists (take_while is_space s),
         (rev (take_while is_space (rev (drop_while is_space s)))).
  split; [|split].
  - unfold strip. rewrite <- rev_app_distr, take_drop_while, rev_involutive.
    by rewrite take_drop_while.
  - apply take_while_all.
  - rewrite forallb_forall. intros c Hc%in_rev. revert c Hc.
    rewrite <- forallb_forall. apply take_while_all.
Qed.

Lemma blank_not_word l :
  forallb is_space l = true → forallb (λ c, negb (is_word c)) l = true.
Proof.
  rewrite !forallb_forall. intros H c Hc.
  by rewrite (space_not_word c (H c Hc)).
Qed.

(** Trimming keeps the runs of word characters. *)
Lemma runs_strip s : runs is_word (strip s) = runs is_word s.
Proof.
  destruct (strip_decompose s) as (lead & trail & Hs & Hl & Ht).
  rewrite Hs at 2.
  rewrite runs_skip by (by apply blank_not_word).
  by rewrite runs_trail by (by apply blank_not_word).
Qed.

Lemma last_rev {A} (l : list A) : last (rev l) = head l.
Proof.
  destruct l as [|x l]; [done|]. cbn [rev head]. apply last_snoc.
Qed.

Lemma head_rev {A} (l : list A) : head (rev l) = last l.
Proof.
  rewrite <- (rev_involutive l) at 2. by rewrite last_rev.
Qed.

Lemma head_not_space_stop s :
  (∀ c, head s = Some c → is_space c = false) → drop_while is_space s = s.
Proof.
  intros H. apply drop_while_stop. destruct s as [|c s]; [done|].
  by apply H.
Qed.

Lemma drop_while_head_ok p s c :
  head (drop_while p s) = Some c → p c = false.
Proof.
  intros H. destruct (drop_while_head p s) as [Hn|(d & Hd & Hp)]; congruence.
Qed.

(** A trimmed string is left alone by [strip]. *)
Lemma strip_idempotent s : strip (strip s) = strip s.
Proof.
  unfold strip at 2 3.
  set (d := drop_while is_space s).
  set (l := drop_while is_space (rev d)).
  assert (∀ c, head l = Some c → is_space c = false) as Hl
    by (intros c; apply drop_while_head_ok).
  assert (∀ c, head (rev l) = Some c → is_space c = false) as Hrl.
  { intros c. rewrite head_rev.
    destruct l as [|x l'] eqn:El; [done|].
    assert (last (rev d) = last (x :: l')) as <-.
    { rewrite <- (take_drop_while is_space (rev d)). fold l. rewrite El.
      rewrite last_app. destruct (last (x :: l')) eqn:E; [done|].
      by apply last_None in E. }
    rewrite last_rev. apply drop_while_head_ok. }
  unfold strip. rewrite (head_not_space_stop _ Hrl), rev_involutive.
  by rewrite (head_not_space_stop _ Hl).
Qed.

(** ** Word tokens *)

Lemma tokenize_forall (text : str) :
  Forall (λ w, w ≠ [] ∧ all_alpha w = true ∧ ∀ c, c ∈ w → c ∈ text)
         (_tokenize text).
Proof.
  apply Forall_forall. intros w Hw. apply list_elem_of_In in Hw.
  rewrite tokenize_runs in Hw. apply filter_In in Hw as [Hin Hall].
  apply list_elem_of_In, runs_elem in Hin as [Hne Hsub].
  split; [done|]. split; [done|]. intros c Hc. by apply Hsub.
Qed.

(** X1.  Every token is a non-empty string of ASCII letters taken from the
    text. *)
Theorem tokens_are_words (text : str) :
  Forall (λ w, w ≠ [] ∧ all_alpha w = true ∧ ∀ c, c ∈ w → c ∈ text)
         (_tokenize text).
Proof.
  apply tokenize_forall.
Qed.

(** X2.  A text without an ASCII letter has no token. *)
Theorem no_letters_no_tokens (text : str) :
  forallb (λ c, negb (is_alpha c)) text = true → _tokenize text = [].
Proof.
  intros Hall. destruct (_tokenize text) as [|w ws] eqn:E; [done|].
  destruct (tokenize_has_alpha text) as (c & Hc & Ha); [by rewrite E|].
  rewrite forallb_forall in Hall.
  specialize (Hall c (proj1 (list_elem_of_In _ _) Hc)).
  by rewrite Ha in Hall.
Qed.

Lemma no_letters_no_tokens_witness :
  forallb (λ c, negb (is_alpha c)) (chars "4 + 4 = 8 (?!)") = true ∧
  _tokenize (chars "4 + 4 = 8 (?!)") = [].
Proof.
  split; [vm_compute; reflexivity|].
  apply no_letters_no_tokens. vm_compute. reflexivity.
Defined.

(** X3.  Tokenizing a token gives back that token alone. *)
Theorem tokenize_token (text : str) :
  Forall (λ w, _tokenize w = [w]) (_tokenize text).
Proof.
  eapply Forall_impl; [apply tokenize_forall|].
  intros w (Hne & Hall & _). cbn beta in *.
  rewrite tokenize_runs, runs_single; [|done|].
  - cbn [List.filter]. by rewrite Hall.
  - unfold all_alpha in Hall. rewrite forallb_forall in *.
    intros c Hc. apply alpha_is_word. by apply Hall.
Qed.

(** ** Sentences *)

Lemma strip_subset s c : In c (strip s) → In c s.
Proof.
  destruct (strip_decompose s) as (lead & trail & Hs & _ & _).
  intros H. rewrite Hs. apply in_or_app. right. apply in_or_app. by left.
Qed.

(** No piece of the split holds a terminator. *)
Lemma split_loop_no_terminator fuel prev cur s :
  length s < fuel →
  forallb not_terminator cur = true →
  Forall (λ piece, forallb not_terminator piece = true)
         (split_loop sentence_end_re fuel prev cur s).
Proof.
  revert prev cur s. induction fuel as [|fuel IH]; intros prev cur s Hlen Hcur;
    [lia|].
  assert (forallb not_terminator (rev cur) = true) as Hrev.
  { rewrite forallb_forall in *. intros c Hc%in_rev. by apply Hcur. }
  cbn [split_loop]. destruct s as [|c s]; [by repeat constructor|].
  cbn [length] in Hlen. rewrite match_sentence_end.
  cbn [take_while drop_while].
  destruct (is_terminator c) eqn:E; cbn [nonempty].
  - constructor; [done|]. apply IH; [|done].
    pose proof (drop_while_length is_terminator s). lia.
  - apply IH; [lia|]. cbn [forallb]. unfold not_terminator at 1.
    by rewrite E, Hcur.
Qed.

(** X4.  Every sentence is non-empty, holds no terminator and is
    trimmed. *)
Theorem sentences_trimmed (text : str) :
  Forall (λ s, s ≠ [] ∧ forallb not_terminator s = true ∧ strip s = s)
         (_split_sentences text).
Proof.
  apply Forall_forall. intros s Hs. unfold _split_sentences in Hs.
  apply list_elem_of_In, in_map_iff in Hs as (piece & <- & Hin).
  apply list_elem_of_In, list_elem_of_filter in Hin as [Hne Hpiece].
  split; [by destruct (strip piece)|]. split; [|apply strip_idempotent].
  pose proof (split_loop_no_terminator (S (length text)) None [] text
                ltac:(lia) eq_refl) as Hall.
  rewrite Forall_forall in Hall. specialize (Hall piece Hpiece).
  rewrite forallb_forall in *. intros c Hc. by apply Hall, strip_subset.
Qed.

(** The runs of word characters of the text are those of the pieces. *)
Lemma split_loop_runs fuel prev cur s :
  length s < fuel →
  concat (map (runs is_word) (split_loop sentence_end_re fuel prev cur s)) =
  runs is_word (rev cur ++ s).
Proof.
  revert prev cur s. induction fuel as [|fuel IH]; intros prev cur s Hlen;
    [lia|].
  cbn [split_loop]. destruct s as [|c s].
  { cbn [map concat]. by rewrite !app_nil_r. }
  cbn [length] in Hlen. rewrite match_sentence_end.
  cbn [take_while drop_while].
  destruct (is_terminator c) eqn:E; cbn [nonempty].
  - cbn [map concat]. rewrite IH
      by (pose proof (drop_while_length is_terminator s); lia).
    cbn [rev app]. rewrite runs_app_sep by (by apply terminator_not_word).
    f_equal. rewrite <- (take_drop_while is_terminator s) at 2.
    rewrite runs_skip; [done|].
    pose proof (take_while_all is_terminator s) as Hall.
    rewrite forallb_forall in *. intros x Hx.
    by rewrite (terminator_not_word x (Hall x Hx)).
  - rewrite IH by lia. cbn [rev]. by rewrite <- app_assoc.
Qed.

Lemma sum_list_cons x l : sum_list (x :: l) = (x + sum_list l)%Z.
Proof.
  unfold sum_list. cbn [fold_left].
  assert (∀ a b, fold_left Z.add l (a + b)%Z = (a + fold_left Z.add l b)%Z)
    as H.
  { induction l as [|y l IH]; intros a b; cbn [fold_left]; [done|].
    by rewrite <- Z.add_assoc, IH. }
  rewrite <- H. f_equal. lia.
Qed.

Lemma sum_list_concat {A B} (f : A → list B) (l : list A) :
  sum_list (map (λ x, len (f x)) l) = len (concat (map f l)).
Proof.
  induction l as [|x l IH]; [done|]. cbn [map concat].
  rewrite sum_list_cons, IH. unfold len. rewrite length_app. lia.
Qed.

Lemma sentence_tokens (text : str) :
  concat (map _tokenize (_split_sentences text)) = _tokenize text ∧
  sum_list (map (λ s, len (_tokenize s)) (_split_sentences text)) =
  len (_tokenize text).
Proof.
  assert (concat (map _tokenize (_split_sentences text)) = _tokenize text)
    as Hcat.
  { unfold _split_sentences. rewrite map_map.
    rewrite (tokenize_runs text).
    replace (runs is_word text)
      with (concat (map (runs is_word) (re_split sentence_end_re text)))
      by (unfold re_split; by rewrite split_loop_runs by lia).
    rewrite <- concat_filter_map, map_map.
    induction (re_split sentence_end_re text) as [|piece pieces IH];
      [done|].
    cbn [map concat]. rewrite <- IH. rewrite filter_cons.
    destruct (decide (nonempty (strip piece) = true)) as [Hne|Hempty].
    - cbn [map concat]. by rewrite tokenize_runs, runs_strip.
    - rewrite <- (runs_strip piece). destruct (strip piece); [done|].
      by destruct Hempty. }
  split; [done|]. by rewrite sum_list_concat, Hcat.
Qed.

(** X5.  Tokenizing the sentences one by one gives the tokens of the whole
    text, in order; so the per-sentence word counts add up to the word
    count of the text. *)
Theorem tokens_by_sentence (text : str) :
  concat (map _tokenize (_split_sentences text)) = _tokenize text ∧
  sum_list (map (λ s, len (_tokenize s)) (_split_sentences text)) =
  len (_tokenize text).
Proof.
  apply sentence_tokens.
Qed.

(** ** Quotients of counts *)

Lemma truediv_nonneg a b : (0 ≤ a)%Z → (0 ≤ b)%Z → (0 <= truediv a b)%Q.
Proof.
  intros Ha Hb. unfold truediv, Qdiv. apply Qmult_le_0_compat.
  - change 0%Q with (inject_Z 0). by rewrite <- Zle_Qle.
  - apply Qinv_le_0_compat. change 0%Q with (inject_Z 0).
    by rewrite <- Zle_Qle.
Qed.

Lemma truediv_pos a b : (0 < a)%Z → (0 < b)%Z → (0 < truediv a b)%Q.
Proof.
  intros Ha Hb. unfold truediv. apply Qlt_shift_div_l.
  - change 0%Q with (inject_Z 0). by rewrite <- Zlt_Qlt.
  - rewrite Qmult_0_l. change 0%Q with (inject_Z 0). by rewrite <- Zlt_Qlt.
Qed.

Lemma truediv_le_1 a b : (0 ≤ a ≤ b)%Z → (truediv a b <= 1)%Q.
Proof.
  intros [Ha Hab]. destruct (decide (b = 0%Z)) as [->|Hb].
  - assert (a = 0%Z) as -> by lia. vm_compute. discriminate.
  - unfold truediv. apply Qle_shift_div_r.
    + change 0%Q with (inject_Z 0). rewrite <- Zlt_Qlt. lia.
    + rewrite Qmult_1_l. by rewrite <- Zle_Qle.
Qed.

Lemma truediv_ge_1 a b : (0 < b ≤ a)%Z → (1 <= truediv a b)%Q.
Proof.
  intros [Hb Hab]. unfold truediv. apply Qle_shift_div_l.
  - change 0%Q with (inject_Z 0). by rewrite <- Zlt_Qlt.
  - rewrite Qmult_1_l. by rewrite <- Zle_Qle.
Qed.

Lemma truediv_zero_iff a b :
  (0 ≤ a)%Z → (0 < b)%Z → (truediv a b == 0)%Q ↔ a = 0%Z.
Proof.
  intros Ha Hb. split.
  - intros H. destruct (decide (a = 0%Z)) as [|Hne]; [done|].
    pose proof (truediv_pos a b ltac:(lia) Hb) as Hpos.
    rewrite H in Hpos. by apply Qlt_irrefl in Hpos.
  - intros ->. unfold truediv, Qdiv. apply Qmult_0_l.
Qed.

Lemma count_if_bounds {A} (p : A → bool) (l : list A) :
  (0 ≤ count_if p l ≤ len l)%Z.
Proof.
  unfold count_if, len. pose proof (filter_length_le p l). lia.
Qed.

Lemma len_nonneg {A} (l : list A) : (0 ≤ len l)%Z.
Proof.
  unfold len. lia.
Qed.

Lemma len_pos {A} (l : list A) : l ≠ [] → (0 < len l)%Z.
Proof.
  unfold len. destruct l; [done|]. simpl. lia.
Qed.

(** ** Sizes of sets built from lists *)

Lemma size_list_to_set_le (l : list str) :
  size (list_to_set l : gset str) ≤ length l.
Proof.
  induction l as [|x l IH]; [done|].
  rewrite list_to_set_cons, size_union_alt, size_singleton. cbn [length].
  assert (size (list_to_set l ∖ {[x]} : gset str) ≤
          size (list_to_set l : gset str))
    by (by apply subseteq_size, subseteq_difference_l).
  lia.
Qed.

Lemma size_list_to_set_pos (l : list str) :
  l ≠ [] → 0 < size (list_to_set l : gset str).
Proof.
  destruct l as [|x l]; [done|]. intros _.
  assert (size (list_to_set (x :: l) : gset str) ≠ 0); [|lia].
  apply size_non_empty_iff. set_solver.
Qed.

Lemma size_list_to_set_full (l : list str) :
  size (list_to_set l : gset str) = length l ↔ NoDup l.
Proof.
  split; [|apply size_list_to_set].
  induction l as [|x l IH]; [constructor|].
  rewrite list_to_set_cons. cbn [length]. intros Hsize.
  pose proof (size_list_to_set_le l) as Hle.
  destruct (decide (x ∈ l)) as [Hin|Hnin].
  - assert ({[x]} ∪ list_to_set l = (list_to_set l : gset str)) as Heq
      by (by apply subseteq_union_1_L, singleton_subseteq_l,
               elem_of_list_to_set).
    rewrite Heq in Hsize. lia.
  - rewrite size_union in Hsize by set_solver.
    rewrite size_singleton in Hsize.
    constructor; [done|]. apply IH. lia.
Qed.

(** ** Feature values *)

(** The entries of a feature vector, with the guards of the source
    resolved. *)
Lemma extract_features_lookup text name v :
  extract_features text !! name = Some v →
  let words := _tokenize text in
  let sentences := _split_sentences text in
  words ≠ [] ∧ sentences ≠ [] ∧
  ((name = "avg_sentence_length"%string ∧
    v = truediv (sum_list (map (λ s, len (_tokenize s)) sentences))
                (len (map (λ s, len (_tokenize s)) sentences))) ∨
   (name = "vocabulary_richness"%string ∧
    v = truediv (Z.of_nat (size (list_to_set (lower <$> words) : gset str)))
                (len words)) ∨
   (name = "punctuation_density"%string ∧
    v = truediv (count_if (λ char, char_in char punctuation_marks) text)
                (len words)) ∨
   (name = "conjunction_freq"%string ∧
    v = truediv (count_if (λ word, in_set (lower word) conjunctions) words)
                (len words)) ∨
   (name = "first_person_freq"%string ∧
    v = truediv (count_if (λ word, in_set (lower word) first_person) words)
                (len words)) ∨
   (name = "passive_voice_freq"%string ∧
    v = truediv
          (count_if (λ word, in_set (lower word) passive_indicators) words)
          (len words)) ∨
   (name = "avg_word_length"%string ∧
    v = truediv (sum_list (map len words)) (len words)) ∨
   (name = "sentence_complexity"%string ∧
    v = truediv (count_if (λ char, char_in char (chars ",;:")) text)
                (len sentences)) ∨
   (name = "repetition_score"%string ∧ v = _calculate_repetition words) ∨
   (name = "formality_score"%string ∧ v = _calculate_formality text words)).
Proof.
  intros H words sentences. unfold extract_features in H.
  destruct (negb (nonempty text) || (length (strip text) =? 0)); [done|].
  fold words sentences in H.
  destruct words as [|w ws] eqn:Ew; [done|].
  destruct sentences as [|s ss] eqn:Es; [done|].
  split; [done|]. split; [done|].
  cbn [length Nat.eqb orb map nonempty] in H. cbv zeta in H.
  repeat (apply lookup_insert_Some in H as [[<- <-]|[_ H]];
          [tauto|]).
  done.
Qed.

Lemma formality_bounds text words :
  (0 <= _calculate_formality text words <= 1)%Q.
Proof.
  unfold _calculate_formality. destruct (negb (nonempty words)).
  - split; vm_compute; discriminate.
  - apply clamp_unit.
Qed.

Lemma repetition_bounds (words : list str) :
  (0 <= _calculate_repetition words < 1)%Q.
Proof.
  unfold _calculate_repetition.
  destruct (length words <? 4); [lra|].
  destruct (trigrams_of words) as [|t ts] eqn:E; cbn [nonempty negb]; [lra|].
  pose proof (size_list_to_set_le (t :: ts)) as Hle.
  pose proof (size_list_to_set_pos (t :: ts) ltac:(done)) as Hpos.
  match goal with
  | |- context [truediv ?a ?b] =>
      pose proof (truediv_pos a b ltac:(lia) ltac:(by apply len_pos));
      pose proof (truediv_le_1 a b ltac:(unfold len; lia));
      generalize dependent (truediv a b)
  end.
  intros; lra.
Qed.

(** X6.  The repetition score is at least 0 and strictly below 1. *)
Theorem repetition_range (words : list str) :
  (0 <= _calculate_repetition words < 1)%Q.
Proof.
  apply repetition_bounds.
Qed.

Lemma feature_bounds (text : str) (name : string) (v : Q) :
  extract_features text !! name = Some v →
  (0 <= v)%Q ∧ (name ∈ ratio_features → (v <= 1)%Q).
Proof.
  intros H. destruct (extract_features_lookup text name v H)
    as (Hw & Hs & Hcases).
  pose proof (len_pos _ Hw) as Hlw.
  assert (∀ n : string, n ∉ ratio_features → n ∈ ratio_features →
                        (v <= 1)%Q) as Hout by (intros; done).
  destruct Hcases as
    [[-> ->]|[[-> ->]|[[-> ->]|[[-> ->]|[[-> ->]|[[-> ->]|[[-> ->]|
    [[-> ->]|[[-> ->]|[-> ->]]]]]]]]]].
  - split.
    + apply truediv_nonneg; [|apply len_nonneg].
      rewrite sum_list_concat. apply len_nonneg.
    + apply Hout. apply (bool_decide_unpack _). by vm_compute.
  - pose proof (size_list_to_set_le (lower <$> _tokenize text)) as Hle.
    rewrite length_fmap in Hle.
    split; [apply truediv_nonneg; lia|].
    intros _. apply truediv_le_1. unfold len. lia.
  - split; [apply truediv_nonneg; [apply count_if_bounds|lia]|].
    apply Hout. apply (bool_decide_unpack _). by vm_compute.
  - split; [apply truediv_nonneg; [apply count_if_bounds|lia]|].
    intros _. apply truediv_le_1, count_if_bounds.
  - split; [apply truediv_nonneg; [apply count_if_bounds|lia]|].
    intros _. apply truediv_le_1, count_if_bounds.
  - split; [apply truediv_nonneg; [apply count_if_bounds|lia]|].
    intros _. apply truediv_le_1, count_if_bounds.
  - split.
    + apply truediv_nonneg; [|lia].
      rewrite (sum_list_concat (λ w, w)). apply len_nonneg.
    + apply Hout. apply (bool_decide_unpack _). by vm_compute.
  - split; [apply truediv_nonneg; [apply count_if_bounds|apply len_nonneg]|].
    apply Hout. apply (bool_decide_unpack _). by vm_compute.
  - pose proof (repetition_bounds (_tokenize text)). split; [lra|].
    intros _. lra.
  - split; [apply formality_bounds|]. intros _. apply formality_bounds.
Qed.

(** X7.  Every feature value is non-negative, and the six ratio features
    (vocabulary richness, the three word frequencies, repetition and
    formality) are at most 1. *)
Theorem feature_ranges (text : str) (name : string) (v : Q) :
  extract_features text !! name = Some v →
  (0 <= v)%Q ∧ (name ∈ ratio_features → (v <= 1)%Q).
Proof.
  apply feature_bounds.
Qed.

Lemma feature_ranges_witness :
  ∃ v, extract_features sample_text !! "vocabulary_richness"%string = Some v ∧
       (0 <= v)%Q ∧ (v <= 1)%Q.
Proof.
  eexists. split; [vm_compute; reflexivity|].
  destruct (feature_ranges sample_text "vocabulary_richness"
              (truediv 8 10) ltac:(vm_compute; reflexivity)) as [H0 H1].
  split; [exact H0|]. apply H1.
  apply (bool_decide_unpack _). vm_compute. exact I.
Defined.

Lemma sum_lengths_ge (l : list str) :
  Forall (λ w, w ≠ []) l → (len l ≤ sum_list (map len l))%Z.
Proof.
  induction 1 as [|w l Hw _ IH]; [done|]. cbn [map].
  rewrite sum_list_cons. unfold len in *. cbn [length].
  destruct w; [done|]. cbn [length]. lia.
Qed.

(** X8.  In a feature vector that is not empty, the average sentence
    length is the word count of the text over its sentence count and is
    positive, the average word length is at least 1, and the vocabulary
    richness is positive. *)
Theorem feature_averages (text : str) :
  extract_features text ≠ ∅ →
  ∃ asl awl vr,
    extract_features text !! "avg_sentence_length"%string = Some asl ∧
    extract_features text !! "avg_word_length"%string = Some awl ∧
    extract_features text !! "vocabulary_richness"%string = Some vr ∧
    asl = truediv (len (_tokenize text)) (len (_split_sentences text)) ∧
    (0 < asl)%Q ∧ (1 <= awl)%Q ∧ (0 < vr)%Q.
Proof.
  intros Hne.
  assert (∀ name, name ∈ feature_names →
                  ∃ v, extract_features text !! name = Some v) as Hsome.
  { intros name Hin.
    by destruct (feature_vector_complete text name Hne Hin) as [v Hv];
      exists v. }
  assert (∀ name : string, bool_decide (name ∈ feature_names) = true →
                           name ∈ feature_names) as Hdec
    by (intros name; apply bool_decide_eq_true_1).
  destruct (Hsome "avg_sentence_length"%string) as [asl Hasl];
    [by apply Hdec; vm_compute|].
  destruct (Hsome "avg_word_length"%string) as [awl Hawl];
    [by apply Hdec; vm_compute|].
  destruct (Hsome "vocabulary_richness"%string) as [vr Hvr];
    [by apply Hdec; vm_compute|].
  exists asl, awl, vr. do 3 (split; [done|]).
  destruct (extract_features_lookup _ _ _ Hasl) as (Hw & Hs & Hc1).
  destruct (extract_features_lookup _ _ _ Hawl) as (_ & _ & Hc2).
  destruct (extract_features_lookup _ _ _ Hvr) as (_ & _ & Hc3).
  pose proof (len_pos _ Hw) as Hlw. pose proof (len_pos _ Hs) as Hls.
  assert (asl = truediv (len (_tokenize text)) (len (_split_sentences text)))
    as Easl.
  { destruct Hc1 as [[_ ->]|Hc1];
      [|by repeat (destruct Hc1 as [[? _]|Hc1]; [done|]);
           destruct Hc1 as [? _]].
    rewrite (proj2 (sentence_tokens text)). unfold len at 2.
    by rewrite length_map. }
  split; [done|]. split; [|split].
  - rewrite Easl. by apply truediv_pos.
  - destruct Hc2 as [[? _]|Hc2]; [done|].
    do 5 (destruct Hc2 as [[? _]|Hc2]; [done|]).
    destruct Hc2 as [[_ ->]|Hc2];
      [|by repeat (destruct Hc2 as [[? _]|Hc2]; [done|]);
           destruct Hc2 as [? _]].
    apply truediv_ge_1. split; [done|]. apply sum_lengths_ge.
    eapply Forall_impl; [apply tokenize_forall|]. by intros w (? & _).
  - destruct Hc3 as [[? _]|Hc3]; [done|].
    destruct Hc3 as [[_ ->]|Hc3];
      [|by repeat (destruct Hc3 as [[? _]|Hc3]; [done|]);
           destruct Hc3 as [? _]].
    apply truediv_pos; [|done].
    pose proof (size_list_to_set_pos (lower <$> _tokenize text)) as Hpos.
    assert (lower <$> _tokenize text ≠ []) as Hl
      by (by destruct (_tokenize text)).
    specialize (Hpos Hl). lia.
Qed.

Lemma feature_averages_witness :
  extract_features sample_text ≠ ∅ ∧
  ∃ asl, extract_features sample_text !! "avg_sentence_length"%string =
           Some asl ∧
         asl = truediv 10 2.
Proof.
  assert (extract_features sample_text ≠ ∅) as Hne.
  { intros H%extract_features_empty_iff. vm_compute in H. discriminate. }
  split; [exact Hne|].
  destruct (feature_averages sample_text Hne)
    as (asl & _ & _ & H & _ & _ & E & _).
  exists asl. split; [exact H|]. rewrite E. vm_compute. reflexivity.
Defined.

(** ** Word lists *)







(** ** Repetition and formality *)

(** X10.  From four words on, the repetition score is 0 exactly when no
    trigram occurs twice. *)
Theorem repetition_zero_iff (words : list str) :
  4 ≤ length words →
  (_calculate_repetition words == 0)%Q ↔ NoDup (trigrams_of words).
Proof.
  intros Hlen. unfold _calculate_repetition.
  rewrite (proj2 (Nat.ltb_ge _ _) Hlen).
  destruct (trigrams_of words) as [|t ts] eqn:E.
  { exfalso. rewrite trigrams_of_sliding3 in E.
    destruct words as [|a [|b [|c [|d rest]]]]; simpl in Hlen; try lia.
    done. }
  cbn [nonempty negb]. rewrite <- size_list_to_set_full.
  pose proof (size_list_to_set_le (t :: ts)) as Hle.
  set (n := size (list_to_set (t :: ts) : gset str)) in *.
  assert (0 < len (t :: ts))%Z as Hpos by (by apply len_pos).
  split.
  - intros H.
    assert (inject_Z (len (t :: ts)) == 0 → False)%Q as Hnz.
    { intros Hq. change 0%Q with (inject_Z 0) in Hq.
      apply (proj1 (inject_Z_injective _ _)) in Hq. lia. }
    assert (inject_Z (Z.of_nat n) ==
            truediv (Z.of_nat n) (len (t :: ts)) * inject_Z (len (t :: ts)))%Q
      as Hn by (unfold truediv; field; exact Hnz).
    assert (truediv (Z.of_nat n) (len (t :: ts)) == 1)%Q as H1 by lra.
    rewrite H1, Qmult_1_l in Hn.
    apply (proj1 (inject_Z_injective _ _)) in Hn.
    unfold len in Hn. lia.
  - intros ->. unfold truediv, len. field.
    intros Hq. change 0%Q with (inject_Z 0) in Hq.
    apply (proj1 (inject_Z_injective _ _)) in Hq. unfold len in Hpos. lia.
Qed.

Lemma repetition_zero_iff_witness :
  (_calculate_repetition (chars <$> ["to"; "be"; "or"; "not"; "to"; "be"]%string)
   == 0)%Q.
Proof.
  apply (repetition_zero_iff
           (chars <$> ["to"; "be"; "or"; "not"; "to"; "be"]%string)).
  - vm_compute. lia.
  - apply (bool_decide_unpack _). vm_compute. exact I.
Defined.

Lemma clamp_one x : (py_max 0 (py_min 1 x) == 1 ↔ 1 <= x)%Q.
Proof.
  unfold py_max, py_min.
  destruct (Qlt_bool x 1) eqn:E1.
  - apply Qlt_bool_true in E1. destruct (Qlt_bool 0 x) eqn:E2; split; lra.
  - apply Qlt_bool_false in E1. destruct (Qlt_bool 0 1) eqn:E2.
    + split; [done|reflexivity].
    + apply Qlt_bool_false in E2. lra.
Qed.

(** X11.  With at least one word, the formality score is 1 exactly when
    the text has no contraction and no word is an informal marker. *)
Theorem formality_one_iff (text : str) (words : list str) :
  words ≠ [] →
  (_calculate_formality text words == 1)%Q ↔
  re_findall contraction_re (lower text) = [] ∧
  count_if (λ word, in_set (lower word) informal_markers) words = 0%Z.
Proof.
  intros Hne. pose proof (len_pos _ Hne) as Hpos.
  unfold _calculate_formality. destruct words as [|w ws]; [done|].
  cbn [nonempty negb]. rewrite clamp_one.
  set (contractions := re_findall contraction_re (lower text)).
  set (informal := count_if _ _).
  pose proof (len_nonneg contractions) as Hc.
  assert (0 ≤ informal)%Z as Hi by apply count_if_bounds.
  pose proof (truediv_nonneg _ _ Hc (Z.lt_le_incl _ _ Hpos)) as Hcr.
  pose proof (truediv_nonneg _ _ Hi (Z.lt_le_incl _ _ Hpos)) as Hir.
  pose proof (truediv_zero_iff _ _ Hc Hpos) as Zc.
  pose proof (truediv_zero_iff _ _ Hi Hpos) as Zi.
  split.
  - intros H.
    assert (truediv (len contractions) (len (w :: ws)) == 0)%Q as H1 by lra.
    assert (truediv informal (len (w :: ws)) == 0)%Q as H2 by lra.
    apply Zc in H1. apply Zi in H2. split; [|done].
    destruct contractions; [done|]. unfold len in H1. simpl in H1. lia.
  - intros [H1 H2].
    assert (truediv (len contractions) (len (w :: ws)) == 0)%Q as E1
      by (apply Zc; by rewrite H1).
    assert (truediv informal (len (w :: ws)) == 0)%Q as E2 by (by apply Zi).
    lra.
Qed.

Lemma formality_one_iff_witness :
  (_calculate_formality (chars "We are ready.") (chars <$> ["We"; "are"]%string)
   == 1)%Q.
Proof.
  apply (formality_one_iff (chars "We are ready.")
           (chars <$> ["We"; "are"]%string)); [done|].
  vm_compute. split; reflexivity.
Defined.

Lemma backtrack_Some {A} (try : nat → option A) K x :
  backtrack try K = Some x → ∃ k, 1 ≤ k ≤ K ∧ try k = Some x.
Proof.
  induction K as [|K IH]; [done|]. cbn [backtrack].
  destruct (try (S K)) as [y|] eqn:E.
  - intros [= <-]. exists (S K). split; [lia|done].
  - intros (k & Hk & H)%IH. exists k. split; [lia|done].
Qed.

(** The contraction pattern only matches where an apostrophe follows. *)
Lemma match_contraction_apostrophe prev s m rest :
  match_here contraction_re prev s = Some (m, rest) → In "'"%char s.
Proof.
  unfold contraction_re. cbn [match_here].
  destruct (at_boundary prev s); [|done].
  intros (k & _ & H)%backtrack_Some.
  rewrite <- (take_drop k s). apply in_or_app. right.
  destruct (drop k s) as [|x s']; [done|].
  destruct (Ascii.eqb x "'") eqn:Ex; [|done].
  apply Ascii.eqb_eq in Ex. left. done.
Qed.

(** Without a place where the pattern matches, the scan finds nothing. *)
Lemma findall_loop_no_match r fuel prev s :
  (∀ prev' s', (∀ c, In c s' → In c s) → match_here r prev' s' = None) →
  findall_loop r fuel prev s = [].
Proof.
  revert prev s. induction fuel as [|fuel IH]; intros prev s H; [done|].
  cbn [findall_loop]. rewrite H by done.
  destruct s as [|c s]; [done|]. apply IH. intros prev' s' Hsub.
  apply H. intros x Hx. right. by apply Hsub.
Qed.

Lemma lower_char_apostrophe c : lower_char c = "'"%char → c = "'"%char.
Proof.
  destruct c as [[] [] [] [] [] [] [] []]; vm_compute; congruence.
Qed.

(** X12.  A text without an apostrophe has no contraction, so with at
    least one word its formality score is 1 minus the share of informal
    markers among the words. *)
Theorem no_apostrophe_formality (text : str) (words : list str) :
  ¬ In "'"%char text →
  re_findall contraction_re (lower text) = [] ∧
  (words ≠ [] →
   (_calculate_formality text words ==
    1 - truediv (count_if (λ word, in_set (lower word) informal_markers) words)
                (len words))%Q).
Proof.
  intros Hno.
  assert (re_findall contraction_re (lower text) = []) as Hnone.
  { apply findall_loop_no_match. intros prev' s' Hsub.
    destruct (match_here contraction_re prev' s') as [[m rest]|] eqn:E;
      [|done].
    exfalso. apply match_contraction_apostrophe, Hsub in E.
    unfold lower in E. apply in_map_iff in E as (c & Hc & Hin).
    apply lower_char_apostrophe in Hc. by subst. }
  split; [done|]. intros Hne. pose proof (len_pos _ Hne) as Hpos.
  unfold _calculate_formality. destruct words as [|w ws]; [done|].
  cbn [nonempty negb]. rewrite Hnone.
  set (informal := count_if _ _).
  assert (truediv (len (@nil str)) (len (w :: ws)) == 0)%Q as Hz
    by (unfold truediv, Qdiv; apply Qmult_0_l).
  pose proof (truediv_nonneg informal (len (w :: ws))
                ltac:(apply count_if_bounds) ltac:(lia)) as H0.
  pose proof (truediv_le_1 informal (len (w :: ws))
                ltac:(apply count_if_bounds)) as H1.
  rewrite py_max_spec, py_min_spec.
  rewrite Q.min_r by lra. rewrite Q.max_r by lra. lra.
Qed.

Lemma no_apostrophe_formality_witness :
  (_calculate_formality (chars "ok, we go") (chars <$> ["ok"; "we"; "go"]%string)
   == 1 - 1 / 3)%Q.
Proof.
  destruct (no_apostrophe_formality (chars "ok, we go")
              (chars <$> ["ok"; "we"; "go"]%string)) as [_ H].
  - vm_compute. intuition discriminate.
  - rewrite H by done. vm_compute. reflexivity.
Defined.

(** ** Rounding keeps order *)

Lemma round_half_even_floor x :
  (Qfloor x ≤ round_half_even x ≤ Qfloor x + 1)%Z.
Proof.
  unfold round_half_even.
  destruct (Qlt_bool _ _); [lia|].
  destruct (Qlt_bool _ _); [lia|].
  destruct (Z.even _); lia.
Qed.

Lemma round_half_even_mono x y :
  (x <= y)%Q → (round_half_even x ≤ round_half_even y)%Z.
Proof.
  intros Hxy. pose proof (Qfloor_resp_le x y Hxy) as Hf.
  destruct (Z.eq_dec (Qfloor x) (Qfloor y)) as [E|NE].
  - pose proof (round_half_even_floor y) as Hy. rewrite <- E in Hy.
    destruct (Qlt_bool (x - inject_Z (Qfloor x)) (1 # 2)) eqn:X1.
    { unfold round_half_even at 1. rewrite X1. lia. }
    unfold round_half_even. rewrite <- E, X1. clear Hy.
    apply Qlt_bool_false in X1.
    remember (inject_Z (Qfloor x)) as f eqn:Ef in *. clear Ef.
    assert (Qlt_bool (y - f) (1 # 2) = false) as ->
      by (apply Qlt_bool_false; lra).
    destruct (Qlt_bool (1 # 2) (x - f)) eqn:X2.
    { apply Qlt_bool_true in X2.
      assert (Qlt_bool (1 # 2) (y - f) = true) as ->
        by (apply Qlt_bool_true; lra).
      lia. }
    destruct (Qlt_bool (1 # 2) (y - f));
      destruct (Z.even _); lia.
  - pose proof (round_half_even_floor x). pose proof (round_half_even_floor y).
    lia.
Qed.

Lemma round_half_even_compat x y :
  (x == y)%Q → round_half_even x = round_half_even y.
Proof.
  intros H. apply Z.le_antisymm; apply round_half_even_mono; lra.
Qed.

Lemma round_half_even_int z : round_half_even (inject_Z z) = z.
Proof.
  unfold round_half_even. rewrite Qfloor_Z.
  assert (Qlt_bool (inject_Z z - inject_Z z) (1 # 2) = true) as ->; [|done].
  apply Qlt_bool_true. generalize (inject_Z z). intros q. lra.
Qed.

Lemma py_round_mono x y :
  (x <= y)%Q → (py_round x 1 <= py_round y 1)%Q.
Proof.
  intros H. unfold py_round. change (inject_Z (10 ^ Z.of_nat 1)) with 10%Q.
  apply Qmult_le_compat_r; [|vm_compute; discriminate].
  rewrite <- Zle_Qle. apply round_half_even_mono. lra.
Qed.

Lemma py_round_compat x y :
  (x == y)%Q → (py_round x 1 == py_round y 1)%Q.
Proof.
  intros H. apply Qle_antisym; apply py_round_mono; lra.
Qed.

(** A whole number is its own rounding. *)
Lemma py_round_int z : (py_round (inject_Z z) 1 == inject_Z z)%Q.
Proof.
  unfold py_round. change (inject_Z (10 ^ Z.of_nat 1)) with (inject_Z 10).
  rewrite <- inject_Z_mult, round_half_even_int, inject_Z_mult. field.
Qed.

Lemma py_round_ge (lo : Z) x :
  (inject_Z lo <= x)%Q → (inject_Z lo <= py_round x 1)%Q.
Proof.
  intros H. rewrite <- (py_round_int lo). by apply py_round_mono.
Qed.

Lemma py_round_le (hi : Z) x :
  (x <= inject_Z hi)%Q → (py_round x 1 <= inject_Z hi)%Q.
Proof.
  intros H. rewrite <- (py_round_int hi). by apply py_round_mono.
Qed.

(** ** Results *)

(** The guard of [extract_features] fires exactly on the texts without a
    word token. *)
Lemma degenerate_iff_no_tokens text :
  degenerate text = true ↔ _tokenize text = [].
Proof.
  split.
  - intros [->|[Hstrip|[H|Hsent]]]%degenerate_spec; [done| |done|].
    + destruct (_tokenize text) as [|w ws] eqn:E; [done|].
      destruct (tokenize_has_alpha text) as (c & Hc & Ha); [by rewrite E|].
      pose proof (strip_keeps text c (proj1 (list_elem_of_In _ _) Hc)
                    (alpha_not_space c Ha)) as Hin.
      rewrite Hstrip in Hin. by destruct Hin.
    + destruct (_tokenize text) as [|w ws] eqn:E; [done|].
      destruct (tokens_have_sentence text); [by rewrite E|done].
  - intros H. unfold degenerate. rewrite H. cbn [length Nat.eqb].
    by rewrite orb_true_r.
Qed.

Section Outcome.
Variable math_exp : Q → option Q.

(** X13.  The result is [Unknown] exactly when the text has no word
    token. *)
Theorem unknown_iff_no_tokens (text : str) :
  (∃ r, predict math_exp text = Returns r ∧
        r !! "prediction"%string = Some (VStr "Unknown")) ↔
  _tokenize text = [].
Proof.
  rewrite <- degenerate_iff_no_tokens, <- extract_features_empty_iff.
  split.
  - intros (r & Hr & H).
    destruct (decide (extract_features text = ∅)) as [|Hne]; [done|].
    destruct (predict_returns_inv math_exp text r Hne Hr)
      as (ai & _ & Hp & _).
    rewrite Hp in H. unfold decision in H.
    by repeat (destruct (Qlt_bool _ _) in H).
  - intros H. exists unknown_result. by rewrite predict_degenerate.
Qed.

(** X14.  Every result that [predict] returns carries one of four labels,
    each with its own fixed message. *)
Theorem label_and_message (text : str) (r : gmap string value) :
  predict math_exp text = Returns r →
  ∃ label message,
    r !! "prediction"%string = Some (VStr label) ∧
    r !! "message"%string = Some (VStr message) ∧
    (label, message) ∈
      [("Unknown", "Text too short or invalid for analysis");
       ("AI", "Analysis complete. The text appears to be ai-generated.");
       ("Human", "Analysis complete. The text appears to be human-written.");
       ("Uncertain",
        "Analysis complete. The text appears to be uncertain-written.")]%string.
Proof.
  destruct (decide (extract_features text = ∅)) as [He|Hne].
  - rewrite predict_degenerate by done. intros [= <-].
    eexists _, _. split; [done|]. split; [done|]. by left.
  - unfold predict. rewrite bool_decide_eq_false_2 by done.
    destruct (ai_probability math_exp (extract_features text)) as [ai|error];
      [|done].
    unfold decision.
    destruct (Qlt_bool _ _); [|destruct (Qlt_bool _ _)];
      intros [= <-]; eexists _, _; (split; [by simplify_map_eq|]);
      (split; [by simplify_map_eq|]);
      apply list_elem_of_In; vm_compute; tauto.
Qed.

(** X15.  A returned result that reports a word count reports the number
    of word tokens of the text, and that number is at least 1. *)
Theorem word_count_positive (text : str) (r : gmap string value) (n : Z) :
  predict math_exp text = Returns r →
  r !! "word_count"%string = Some (VInt n) →
  n = len (_tokenize text) ∧ (1 ≤ n)%Z.
Proof.
  intros Hr H. destruct (decide (extract_features text = ∅)) as [He|Hne].
  - rewrite predict_degenerate in Hr by done. by injection Hr as <-.
  - destruct (predict_returns_inv math_exp text r Hne Hr)
      as (ai & _ & _ & _ & _ & _ & Hwc).
    rewrite Hwc in H. injection H as <-. split; [done|].
    assert (_tokenize text ≠ []) as Hw.
    { intros Hw%degenerate_iff_no_tokens.
      by apply extract_features_degenerate in Hw. }
    pose proof (len_pos _ Hw). lia.
Qed.

(** X16.  In a result returned outside the degenerate branch the reported
    confidence is the larger of the two reported probabilities, and never
    below 50. *)
Theorem confidence_is_larger (text : str) (r : gmap string value) :
  extract_features text ≠ ∅ →
  predict math_exp text = Returns r →
  ∃ c a h,
    r !! "confidence"%string = Some (VFloat c) ∧
    r !! "ai_probability"%string = Some (VFloat a) ∧
    r !! "human_probability"%string = Some (VFloat h) ∧
    (c == Qmax a h)%Q ∧ (50 <= c)%Q.
Proof.
  intros Hne Hr.
  destruct (predict_returns_inv math_exp text r Hne Hr)
    as (ai & _ & _ & Hc & Ha & Hh & _).
  eexists _, _, _. do 3 (split; [done|]).
  assert ((decision ai (1 - ai)).2 == Qmax ai (1 - ai))%Q as Hd.
  { unfold decision.
    destruct (Qlt_bool 0.6 ai) eqn:E1.
    - apply Qlt_bool_true in E1. cbn [snd]. symmetry. apply Q.max_l. lra.
    - destruct (Qlt_bool 0.6 (1 - ai)) eqn:E2; cbn [snd].
      + apply Qlt_bool_true in E2. symmetry. apply Q.max_r. lra.
      + apply py_max_spec. }
  assert (py_round ((decision ai (1 - ai)).2 * 100) 1 ==
          py_round (Qmax ai (1 - ai) * 100) 1)%Q as ->
    by (apply py_round_compat; by rewrite Hd).
  destruct (Qlt_le_dec ai (1 - ai)) as [Hlt|Hge].
  - assert (py_round (Qmax ai (1 - ai) * 100) 1 ==
            py_round ((1 - ai) * 100) 1)%Q as ->
      by (apply py_round_compat; rewrite Q.max_r; lra).
    pose proof (py_round_mono (ai * 100) ((1 - ai) * 100) ltac:(lra)).
    split; [symmetry; by apply Q.max_r|].
    apply (py_round_ge 50 ((1 - ai) * 100)). change (inject_Z 50) with 50%Q.
    lra.
  - assert (py_round (Qmax ai (1 - ai) * 100) 1 ==
            py_round (ai * 100) 1)%Q as ->
      by (apply py_round_compat; rewrite Q.max_l; lra).
    pose proof (py_round_mono ((1 - ai) * 100) (ai * 100) ltac:(lra)).
    split; [symmetry; by apply Q.max_l|].
    apply (py_round_ge 50 (ai * 100)). change (inject_Z 50) with 50%Q.
    lra.
Qed.

(** X17.  When [math.exp] returns no negative number, as the exponential
    does not, the two reported probabilities and the confidence of a result
    returned outside the degenerate branch lie between 0 and 100. *)
Theorem reported_percentages (text : str) (r : gmap string value) :
  (∀ x e, math_exp x = Some e → (0 <= e)%Q) →
  extract_features text ≠ ∅ →
  predict math_exp text = Returns r →
  ∃ c a h,
    r !! "confidence"%string = Some (VFloat c) ∧
    r !! "ai_probability"%string = Some (VFloat a) ∧
    r !! "human_probability"%string = Some (VFloat h) ∧
    (0 <= a <= 100)%Q ∧ (0 <= h <= 100)%Q ∧ (0 <= c <= 100)%Q.
Proof.
  intros Hexp Hne Hr.
  destruct (predict_returns_inv math_exp text r Hne Hr)
    as (ai & Hai & _ & Hc & Ha & Hh & _).
  eexists _, _, _. do 3 (split; [done|]).
  assert (0 < ai <= 1)%Q as Hrange.
  { unfold ai_probability in Hai.
    destruct (math_exp (- logit (extract_features text))) as [e|] eqn:E;
      [|done].
    specialize (Hexp _ _ E).
    destruct (Qeq_bool (1 + e) 0); [done|]. injection Hai as <-. split.
    - apply Qlt_shift_div_l; lra.
    - apply Qle_shift_div_r; lra. }
  assert (∀ x, 0 <= x <= 1 → 0 <= py_round (x * 100) 1 <= 100)%Q as Hround.
  { intros x Hx. split.
    - apply (py_round_ge 0). change (inject_Z 0) with 0%Q. lra.
    - apply (py_round_le 100). change (inject_Z 100) with 100%Q. lra. }
  split; [apply Hround; lra|]. split; [apply Hround; lra|].
  apply Hround. unfold decision.
  destruct (Qlt_bool 0.6 ai); [cbn [snd]; lra|].
  destruct (Qlt_bool 0.6 (1 - ai)); cbn [snd]; [lra|].
  unfold py_max. destruct (Qlt_bool ai (1 - ai)); lra.
Qed.

End Outcome.

(** On the sample text, with the stand-in for [math.exp], [predict]
    returns a result. *)
Lemma sample_returns :
  extract_features sample_text ≠ ∅ ∧
  ∃ r, predict exp_capped sample_text = Returns r.
Proof.
  split.
  - intros H%extract_features_empty_iff. vm_compute in H. discriminate.
  - destruct (predict exp_capped sample_text) as [r|error] eqn:E;
      [by exists r|].
    vm_compute in E. discriminate.
Qed.

Lemma label_and_message_witness :
  ∃ r, predict exp_capped sample_text = Returns r ∧
       ∃ label message,
         r !! "prediction"%string = Some (VStr label) ∧
         r !! "message"%string = Some (VStr message) ∧
         (label, message) ∈
           [("Unknown", "Text too short or invalid for analysis");
            ("AI", "Analysis complete. The text appears to be ai-generated.");
            ("Human",
             "Analysis complete. The text appears to be human-written.");
            ("Uncertain",
             "Analysis complete. The text appears to be uncertain-written.")
           ]%string.
Proof.
  destruct sample_returns as (_ & r & Hr). exists r. split; [exact Hr|].
  exact (label_and_message exp_capped sample_text r Hr).
Defined.

Lemma word_count_positive_witness :
  ∃ r, predict exp_capped sample_text = Returns r ∧
       r !! "word_count"%string = Some (VInt 10) ∧ (1 ≤ 10)%Z.
Proof.
  destruct sample_returns as (Hne & r & Hr). exists r.
  split; [exact Hr|].
  assert (r !! "word_count"%string = Some (VInt 10)) as H.
  { destruct (predict_returns_inv exp_capped sample_text r Hne Hr)
      as (ai & _ & _ & _ & _ & _ & Hwc).
    rewrite Hwc. vm_compute. reflexivity. }
  split; [exact H|].
  exact (proj2 (word_count_positive exp_capped sample_text r 10 Hr H)).
Defined.

Lemma confidence_is_larger_witness :
  extract_features sample_text ≠ ∅ ∧
  ∃ r, predict exp_capped sample_text = Returns r ∧
       ∃ c a h,
         r !! "confidence"%string = Some (VFloat c) ∧
         r !! "ai_probability"%string = Some (VFloat a) ∧
         r !! "human_probability"%string = Some (VFloat h) ∧
         (c == Qmax a h)%Q ∧ (50 <= c)%Q.
Proof.
  destruct sample_returns as (Hne & r & Hr).
  split; [exact Hne|]. exists r. split; [exact Hr|].
  exact (confidence_is_larger exp_capped sample_text r Hne Hr).
Defined.

Lemma reported_percentages_witness :
  (∀ x e, exp_capped x = Some e → (0 <= e)%Q) ∧
  extract_features sample_text ≠ ∅ ∧
  ∃ r, predict exp_capped sample_text = Returns r ∧
       ∃ c a h,
         r !! "confidence"%string = Some (VFloat c) ∧
         r !! "ai_probability"%string = Some (VFloat a) ∧
         r !! "human_probability"%string = Some (VFloat h) ∧
         (0 <= a <= 100)%Q ∧ (0 <= h <= 100)%Q ∧ (0 <= c <= 100)%Q.
Proof.
  assert (∀ x e, exp_capped x = Some e → (0 <= e)%Q) as Hexp.
  { intros x e H. unfold exp_capped in H.
    destruct (Qle_bool 710 x); [done|]. injection H as <-.
    vm_compute. discriminate. }
  destruct sample_returns as (Hne & r & Hr).
  split; [exact Hexp|]. split; [exact Hne|]. exists r. split; [exact Hr|].
  exact (reported_percentages exp_capped sample_text r Hexp Hne Hr).
Defined.

(** ** Texts without a sentence *)

Lemma strip_blank s : forallb is_space s = true → strip s = [].
Proof.
  intros H. unfold strip. by rewrite (drop_while_forall _ _ H).
Qed.

(** X18.  A text has no sentence exactly when it consists of terminators
    and whitespace only. *)
Theorem no_sentence_iff (text : str) :
  _split_sentences text = [] ↔ forallb is_separator text = true.
Proof.
  split.
  - intros Hnil. apply forallb_forall. intros c Hc.
    unfold is_separator.
    destruct (is_terminator c) eqn:Et; [done|].
    destruct (is_space c) eqn:Es; [done|].
    by destruct (split_sentences_nonempty text c
                   (proj2 (list_elem_of_In _ _) Hc) Et Es).
  - intros Hall. unfold _split_sentences.
    assert (∀ piece, piece ∈ re_split sentence_end_re text →
                     strip piece = []) as Hblank.
    { intros piece Hpiece. apply strip_blank, forallb_forall. intros c Hc.
      assert (In c (concat (re_split sentence_end_re text))) as Hin
        by (apply in_concat; exists piece;
            split; [by apply list_elem_of_In|done]).
      unfold re_split in Hin. rewrite split_loop_concat in Hin by lia.
      cbn [rev app] in Hin. apply filter_In in Hin as [Hin Hnt].
      rewrite forallb_forall in Hall. specialize (Hall c Hin).
      unfold is_separator in Hall. unfold not_terminator in Hnt.
      by destruct (is_terminator c). }
    induction (re_split sentence_end_re text) as [|piece pieces IH];
      [done|].
    rewrite filter_cons.
    rewrite (Hblank piece) by (by left). cbn [nonempty].
    destruct (decide (false = true)); [done|].
    apply IH. intros p Hp. apply Hblank. by right.
Qed.

(** ** The logit as a function of one feature *)

Lemma logit_fold features :
  logit features = fold_left (logit_step features) coefficients intercept.
Proof.
  reflexivity.
Qed.

Lemma logit_step_compat features l acc acc' :
  (acc == acc')%Q →
  (fold_left (logit_step features) l acc ==
   fold_left (logit_step features) l acc')%Q.
Proof.
  revert acc acc'. induction l as [|[n c] l IH]; intros acc acc' H; [done|].
  cbn [fold_left]. apply IH. unfold logit_step.
  destruct (features !! n); [by rewrite H|done].
Qed.

Lemma logit_step_shift features l acc d :
  (fold_left (logit_step features) l (acc + d) ==
   fold_left (logit_step features) l acc + d)%Q.
Proof.
  revert acc. induction l as [|[n c] l IH]; intros acc; [done|].
  cbn [fold_left]. unfold logit_step at 2 4.
  destruct (features !! n) as [v|]; [|apply IH].
  rewrite <- IH. apply logit_step_compat. ring.
Qed.

Lemma logit_step_insert_other features name v' l acc :
  name ∉ l.*1 →
  fold_left (logit_step (<[name := v']> features)) l acc =
  fold_left (logit_step features) l acc.
Proof.
  revert acc. induction l as [|[n c] l IH]; intros acc Hnot; [done|].
  cbn [fold_left]. rewrite fmap_cons in Hnot. cbn [fst] in Hnot.
  apply not_elem_of_cons in Hnot as [Hne Hnot].
  rewrite IH by done. f_equal. unfold logit_step.
  by rewrite lookup_insert_ne.
Qed.

Lemma logit_step_insert features name c v v' l acc :
  NoDup l.*1 → (name, c) ∈ l → features !! name = Some v →
  (fold_left (logit_step (<[name := v']> features)) l acc ==
   fold_left (logit_step features) l acc
   + c * (normalized name v' - normalized name v))%Q.
Proof.
  intros Hnd Hin Hv. revert acc Hnd Hin.
  induction l as [|[n0 c0] l IH]; intros acc Hnd Hin;
    [by apply elem_of_nil in Hin|].
  rewrite fmap_cons in Hnd. cbn [fst] in Hnd.
  apply NoDup_cons in Hnd as [Hn0 Hnd]. cbn [fold_left].
  apply elem_of_cons in Hin as [[= <- <-]|Hin].
  - rewrite logit_step_insert_other by done.
    unfold logit_step at 2 4. rewrite lookup_insert_eq, Hv.
    rewrite <- logit_step_shift. apply logit_step_compat. ring.
  - assert (n0 ≠ name) as Hne.
    { intros ->. apply Hn0. apply list_elem_of_fmap. by exists (name, c). }
    unfold logit_step at 2 4. rewrite lookup_insert_ne by done.
    by apply IH.
Qed.

(** X19.  Replacing the value of one feature moves the logit by that
    feature's weight times the change of its normalized value. *)
Theorem logit_sensitivity (features : gmap string Q) (name : string)
  (coefficient v v' : Q) :
  (name, coefficient) ∈ coefficients →
  features !! name = Some v →
  (logit (<[name := v']> features) ==
   logit features
   + coefficient * (normalized name v' - normalized name v))%Q.
Proof.
  intros Hin Hv. rewrite !logit_fold.
  apply logit_step_insert; [|done|done].
  apply (bool_decide_unpack _). by vm_compute.
Qed.

Lemma logit_sensitivity_witness :
  (logit (<["first_person_freq"%string := 1%Q]> sample_features) ==
   logit sample_features + -1.5 * (1 - 0.4))%Q.
Proof.
  apply (logit_sensitivity sample_features "first_person_freq" (-1.5) 0.4 1).
  - apply list_elem_of_In. vm_compute. tauto.
  - vm_compute. reflexivity.
Defined.

(** X22.  On a feature vector holding the ten features the logit is 0.4
    plus the weighted sum of the ten normalized values: avg_sentence_length
    as (value - 15) / 10, avg_word_length as (value - 5) / 2,
    sentence_complexity as (value - 1) / 2, the others as they are, with
    the weights of the coefficient table. *)
Theorem logit_formula (features : gmap string Q)
  (v1 v2 v3 v4 v5 v6 v7 v8 v9 v10 : Q) :
  features !! "avg_sentence_length"%string = Some v1 →
  features !! "vocabulary_richness"%string = Some v2 →
  features !! "punctuation_density"%string = Some v3 →
  features !! "conjunction_freq"%string = Some v4 →
  features !! "first_person_freq"%string = Some v5 →
  features !! "passive_voice_freq"%string = Some v6 →
  features !! "avg_word_length"%string = Some v7 →
  features !! "sentence_complexity"%string = Some v8 →
  features !! "repetition_score"%string = Some v9 →
  features !! "formality_score"%string = Some v10 →
  logit features =
  (0.4 + 0.025 * ((v1 - 15) / 10) + -1.5 * v2 + -0.5 * v3
   + 0.6 * v4 + -1.5 * v5 + 0.8 * v6 + 0.4 * ((v7 - 5) / 2)
   + 0.5 * ((v8 - 1) / 2) + 1.0 * v9 + 1.2 * v10)%Q.
Proof.
  intros H1 H2 H3 H4 H5 H6 H7 H8 H9 H10.
  unfold logit, coefficients. cbn [fold_left].
  rewrite H1, H2, H3, H4, H5, H6, H7, H8, H9, H10. reflexivity.
Qed.

Lemma logit_formula_witness :
  (logit sample_features == -0.875)%Q.
Proof.
  rewrite (logit_formula sample_features 5 0.8 0.2 0 0.4 0.1 3.1 0 0 1
             eq_refl eq_refl eq_refl eq_refl eq_refl
             eq_refl eq_refl eq_refl eq_refl eq_refl).
  vm_compute. reflexivity.
Defined.

(** ** Letter case *)

Lemma lower_char_classes c :
  is_word (lower_char c) = is_word c ∧
  is_alpha (lower_char c) = is_alpha c ∧
  is_terminator (lower_char c) = is_terminator c ∧
  is_space (lower_char c) = is_space c ∧
  char_in (lower_char c) punctuation_marks = char_in c punctuation_marks ∧
  char_in (lower_char c) (chars ",;:") = char_in c (chars ",;:") ∧
  lower_char (lower_char c) = lower_char c.
Proof.
  destruct c as [[] [] [] [] [] [] [] []]; vm_compute; repeat split.
Qed.

Lemma lower_idempotent s : lower (lower s) = lower s.
Proof.
  unfold lower. rewrite map_map. apply map_ext. intros c.
  apply lower_char_classes.
Qed.

Section MapClass.
Variable f : ascii → ascii.
Variable p : ascii → bool.
Hypothesis keeps : ∀ c, p (f c) = p c.

Lemma take_while_map s : take_while p (map f s) = map f (take_while p s).
Proof.
  induction s as [|c s IH]; [done|]. cbn [map take_while].
  rewrite keeps. destruct (p c); [by rewrite IH|done].
Qed.

Lemma drop_while_map s : drop_while p (map f s) = map f (drop_while p s).
Proof.
  induction s as [|c s IH]; [done|]. cbn [map drop_while].
  rewrite keeps. destruct (p c); [by rewrite IH|done].
Qed.

Lemma runs_map s : runs p (map f s) = map (map f) (runs p s).
Proof.
  remember (length s) as n eqn:Hn. revert s Hn.
  induction n as [n IH] using lt_wf_ind. intros s Hn.
  destruct s as [|c s]; [done|]. cbn [map].
  destruct (p c) eqn:E.
  - rewrite !runs_cons_true by (by rewrite ?keeps).
    cbn [map]. change (f c :: map f s) with (map f (c :: s)).
    rewrite take_while_map, drop_while_map. f_equal.
    apply (IH (length (drop_while p s))); [|done].
    pose proof (drop_while_length p s). simpl in Hn. lia.
  - rewrite !runs_cons_false by (by rewrite ?keeps).
    apply (IH (length s)); [simpl in Hn; lia|done].
Qed.

Lemma forallb_map s : forallb p (map f s) = forallb p s.
Proof.
  induction s as [|c s IH]; [done|]. cbn [map forallb].
  by rewrite keeps, IH.
Qed.

Lemma count_if_map s : count_if p (map f s) = count_if p s.
Proof.
  unfold count_if, len. f_equal.
  induction s as [|c s IH]; [done|]. cbn [map List.filter].
  rewrite keeps. destruct (p c); cbn [length]; by rewrite IH.
Qed.
End MapClass.

Lemma tokenize_lower text : _tokenize (lower text) = map lower (_tokenize text).
Proof.
  rewrite !tokenize_runs. unfold lower at 1.
  rewrite (runs_map lower_char is_word)
    by (intros c; apply lower_char_classes).
  induction (runs is_word text) as [|r rs IH]; [done|].
  cbn [map List.filter]. unfold all_alpha at 1.
  rewrite (forallb_map lower_char is_alpha)
    by (intros c; apply lower_char_classes).
  fold (all_alpha r). destruct (all_alpha r); cbn [map]; by rewrite IH.
Qed.

Lemma strip_lower s : strip (lower s) = lower (strip s).
Proof.
  unfold strip, lower.
  rewrite (drop_while_map lower_char is_space)
    by (intros c; apply lower_char_classes).
  rewrite <- map_rev.
  rewrite (drop_while_map lower_char is_space)
    by (intros c; apply lower_char_classes).
  by rewrite map_rev.
Qed.

Lemma split_loop_lower fuel prev prev' cur s :
  split_loop sentence_end_re fuel prev' (lower cur) (lower s) =
  map lower (split_loop sentence_end_re fuel prev cur s).
Proof.
  revert prev prev' cur s.
  induction fuel as [|fuel IH]; intros prev prev' cur s.
  { cbn [split_loop map]. unfold lower. by rewrite map_rev. }
  cbn [split_loop]. destruct s as [|c s].
  { cbn [lower map]. unfold lower. by rewrite map_rev. }
  change (lower (c :: s)) with (lower_char c :: lower s).
  rewrite !match_sentence_end.
  change (lower_char c :: lower s) with (map lower_char (c :: s)).
  rewrite (take_while_map lower_char is_terminator),
          (drop_while_map lower_char is_terminator)
    by (intros x; apply lower_char_classes).
  destruct (take_while is_terminator (c :: s)) as [|x m] eqn:E;
    cbn [map nonempty].
  - apply (IH (Some c) (Some (lower_char c)) (c :: cur) s).
  - cbn [map]. f_equal.
    + unfold lower. by rewrite map_rev.
    + apply (IH _ _ [] (drop_while is_terminator (c :: s))).
Qed.

Lemma split_sentences_lower text :
  _split_sentences (lower text) = map lower (_split_sentences text).
Proof.
  unfold _split_sentences, re_split.
  replace (length (lower text)) with (length text)
    by (unfold lower; by rewrite length_map).
  rewrite (split_loop_lower _ None None [] text).
  induction (split_loop sentence_end_re (S (length text)) None [] text)
    as [|piece pieces IH]; [done|].
  cbn [map]. rewrite !filter_cons, strip_lower.
  assert (nonempty (lower (strip piece)) = nonempty (strip piece)) as ->
    by (by destruct (strip piece)).
  destruct (decide (nonempty (strip piece) = true)); cbn [map];
    by rewrite IH, ?strip_lower.
Qed.

Lemma length_lower s : length (lower s) = length s.
Proof.
  unfold lower. apply length_map.
Qed.

Lemma nonempty_map {A B} (g : A → B) l : nonempty (map g l) = nonempty l.
Proof.
  by destruct l.
Qed.

Lemma count_if_map_list {A} (g : A → A) (p : A → bool) (l : list A) :
  (∀ x, p (g x) = p x) → count_if p (map g l) = count_if p l.
Proof.
  intros H. unfold count_if, len. f_equal.
  induction l as [|x l IH]; [done|]. cbn [map List.filter].
  rewrite H. destruct (p x); cbn [length]; by rewrite IH.
Qed.

Lemma fmap_lower_map_lower (ws : list str) :
  lower <$> map lower ws = lower <$> ws.
Proof.
  induction ws as [|w ws IH]; [done|]. cbn [map].
  by rewrite !fmap_cons, lower_idempotent, IH.
Qed.

Lemma sliding3_map (g : str → str) ws :
  sliding3 (map g ws) = map (map g) (sliding3 ws).
Proof.
  induction ws as [|a tl IH]; [done|].
  destruct tl as [|b [|c rest]]; [done|done|].
  cbn [map sliding3] in *. by rewrite IH.
Qed.

Lemma join_space_lower (ws : list str) :
  lower (join_space ws) = join_space (map lower ws).
Proof.
  induction ws as [|w ws IH]; [done|].
  destruct ws as [|w' ws]; [done|].
  change (join_space (w :: w' :: ws))
    with (w ++ chars " " ++ join_space (w' :: ws)).
  change (join_space (map lower (w :: w' :: ws)))
    with (lower w ++ chars " " ++ join_space (map lower (w' :: ws))).
  rewrite <- IH. unfold lower. by rewrite !map_app.
Qed.

Lemma trigrams_of_lower ws : trigrams_of (map lower ws) = trigrams_of ws.
Proof.
  rewrite !trigrams_of_sliding3, sliding3_map, map_map.
  apply map_ext. intros w.
  by rewrite <- join_space_lower, lower_idempotent.
Qed.

Lemma repetition_lower ws :
  _calculate_repetition (map lower ws) = _calculate_repetition ws.
Proof.
  unfold _calculate_repetition. by rewrite length_map, trigrams_of_lower.
Qed.

Lemma in_set_lower_lower (s : gset str) w :
  in_set (lower (lower w)) s = in_set (lower w) s.
Proof.
  by rewrite lower_idempotent.
Qed.

Lemma formality_lower text ws :
  _calculate_formality (lower text) (map lower ws) =
  _calculate_formality text ws.
Proof.
  unfold _calculate_formality.
  rewrite nonempty_map, lower_idempotent.
  rewrite (count_if_map_list lower) by (intros w; apply in_set_lower_lower).
  unfold len. by rewrite length_map.
Qed.

Lemma extract_features_lower text :
  extract_features (lower text) = extract_features text.
Proof.
  unfold extract_features.
  rewrite strip_lower, !length_lower, tokenize_lower, split_sentences_lower.
  rewrite (nonempty_map lower_char text : nonempty (lower text) = _).
  rewrite !length_map, !nonempty_map, fmap_lower_map_lower.
  rewrite repetition_lower, formality_lower.
  rewrite !(count_if_map_list lower) by (intros w; apply in_set_lower_lower).
  unfold lower at 1 2.
  rewrite (count_if_map lower_char
             (λ char, char_in char punctuation_marks))
    by (intros c; apply lower_char_classes).
  rewrite (count_if_map lower_char (λ char, char_in char (chars ",;:")))
    by (intros c; apply lower_char_classes).
  rewrite !map_map.
  rewrite (map_ext (λ x, len (_tokenize (lower x)))
                   (λ s, len (_tokenize s)))
    by (intros s; rewrite tokenize_lower; unfold len;
        by rewrite length_map).
  rewrite (map_ext (λ x, len (lower x)) len)
    by (intros w; unfold len; by rewrite length_lower).
  unfold len. by rewrite !length_map.
Qed.

(** X20.  The result does not depend on letter case: lower-casing the text
    (characters below U+0100) changes neither the feature vector nor the
    result of [predict]. *)
Theorem predict_ignores_case (math_exp : Q → option Q) (text : str) :
  extract_features (lower text) = extract_features text ∧
  predict math_exp (lower text) = predict math_exp text.
Proof.
  split; [apply extract_features_lower|].
  unfold predict. rewrite extract_features_lower, tokenize_lower.
  unfold len. by rewrite length_map.
Qed.

(** ** The feature summary *)

(** X21.  In a result returned outside the degenerate branch the feature
    summary has exactly the three keys avg_sentence_length,
    vocabulary_richness and formality_score, and the last two are
    percentages between 0 and 100. *)
Theorem summary_percentages (math_exp : Q → option Q) (text : str)
  (r : gmap string value) :
  extract_features text ≠ ∅ →
  predict math_exp text = Returns r →
  ∃ summary vr fs,
    r !! "features"%string = Some (VDict summary) ∧
    dom summary =
      list_to_set ["avg_sentence_length"; "vocabulary_richness";
                   "formality_score"]%string ∧
    summary !! "vocabulary_richness"%string = Some vr ∧
    summary !! "formality_score"%string = Some fs ∧
    (0 <= vr <= 100)%Q ∧ (0 <= fs <= 100)%Q.
Proof.
  intros Hne.
  assert (∀ name : string,
            bool_decide (name ∈ feature_names) = true →
            bool_decide (name ∈ ratio_features) = true →
            (0 <= py_round (get_or_zero (extract_features text) name * 100) 1
               <= 100)%Q) as Hpct.
  { intros name Hin%bool_decide_eq_true_1 Hratio%bool_decide_eq_true_1.
    destruct (feature_vector_complete text name Hne Hin) as [v Hv].
    unfold get_or_zero. rewrite Hv. change (default 0%Q (Some v)) with v.
    destruct (feature_bounds text name v Hv) as [H0 H1].
    specialize (H1 Hratio). split.
    - apply (py_round_ge 0). change (inject_Z 0) with 0%Q. lra.
    - apply (py_round_le 100). change (inject_Z 100) with 100%Q. lra. }
  unfold predict. rewrite bool_decide_eq_false_2 by done.
  destruct (ai_probability math_exp (extract_features text)) as [ai|error];
    [|done].
  destruct (decision _ _) as [prediction confidence]. intros [= <-].
  eexists _, _, _. split; [by simplify_map_eq|].
  split; [|split; [by simplify_map_eq|split; [by simplify_map_eq|]]].
  - rewrite !dom_insert_L, dom_singleton_L. cbn [list_to_set].
    by rewrite (right_id_L ∅ (∪)), !(assoc_L (∪)).
  - split; by apply Hpct.
Qed.

Lemma summary_percentages_witness :
  extract_features sample_text ≠ ∅ ∧
  ∃ r, predict exp_capped sample_text = Returns r ∧
       ∃ summary vr fs,
         r !! "features"%string = Some (VDict summary) ∧
         dom summary =
           list_to_set ["avg_sentence_length"; "vocabulary_richness";
                        "formality_score"]%string ∧
         summary !! "vocabulary_richness"%string = Some vr ∧
         summary !! "formality_score"%string = Some fs ∧
         (0 <= vr <= 100)%Q ∧ (0 <= fs <= 100)%Q.
Proof.
  destruct sample_returns as (Hne & r & Hr).
  split; [exact Hne|]. exists r. split; [exact Hr|].
  exact (summary_percentages exp_capped sample_text r Hne Hr).
Defined.
